(** * GalleryEngine: memory management of the animated gallery

    A shallow embedding of [src/GalleryEngine.js] and the properties of its
    playback controller, thumbnail cache, visibility reclaimer and disposal.

    The engine is a JavaScript class whose methods mutate the instance and
    call the platform (URL.createObjectURL, URL.revokeObjectURL, the
    IntersectionObserver, the console, [img.src]).  The instance is a record,
    the platform is the chronological record of the calls the engine made to
    it, and every method is a computation in a state-and-exception monad. *)

From Stdlib Require Import List String ZArith Lia Bool Arith QArith Permutation.
From Stdlib Require Import Strings.Byte.
Import ListNotations.

Local Open Scope string_scope.
Local Open Scope list_scope.
Local Open Scope Z_scope.

(** ** Values *)

(** A Blob URL.  [URL.createObjectURL] never returns the same URL twice; the
    URLs are numbered in the order of their creation. *)
Definition url := nat.

(** [{offset, length}] of an index entry.  The numbers of the index are
    integers: no index of a blob that fits in memory reaches the precision
    limit of a JavaScript number. *)
Record Range := { offset : Z; length : Z }.

(** One entry of the index, as [JSON.parse] hands it over.  [thumb] and
    [anim] are [None] when the property is absent ([undefined] in the
    source): the engine dereferences them without a check. *)
Record Meta := {
  width : Z;
  height : Z;
  thumb : option Range;
  anim : option Range
}.

(** The index object: its own properties in [Object.entries] order. *)
Definition IndexMap := list (string * Meta).

(** An element of the page.  [el_ref] is the identity of the object ([===]
    compares it), [tagName] and [dataset_id] are what the click handler reads
    from it ([dataset_id = None] when there is no [data-id] attribute). *)
Record Elem := {
  el_ref : nat;
  tagName : string;
  dataset_id : option string
}.

Definition same_object (a b : Elem) : bool := Nat.eqb (el_ref a) (el_ref b).

(** An [IntersectionObserverEntry]. *)
Record IOEntry := {
  target : Elem;
  isIntersecting : bool;
  intersectionRatio : Q
}.

(** What the awaited [fetch(binUrl)] and [res.arrayBuffer()] produced. *)
Inductive FetchOutcome :=
| FetchRejected
| FetchResponse (ok : bool) (status : nat) (body : list byte).

(** The errors the engine can raise or let through. *)
Inductive JsError :=
| FetchRejection
| HttpStatusError (status : nat)
| RangeError
| SyntaxError
| TypeError.


Definition FormatError (e : JsError) : Prop :=
  e = RangeError \/ e = SyntaxError.

(** ** The platform *)

(** Lines the engine writes to the console. *)
Inductive LogEntry :=
| LogLoading
| LogLoaded (items : nat) (byteLength : nat)
| ErrLoadFailed (e : JsError)
| LogThumbInit
| LogThumbDone (n : nat)
| WarnItemMissing (id : string)
| LogStop (id : string)
| LogStopPrevious (id : string)
| LogPlay (id : string)
| WarnAnimMissing (id : string)
| LogDisposing
| LogDisposed.

Definition is_warning (l : LogEntry) : bool :=
  match l with
  | WarnItemMissing _ | WarnAnimMissing _ => true
  | _ => false
  end.

(** Which statement of the engine asked for a Blob URL: the loop of
    [initThumbnails] or [playAnimation]. *)
Inductive BlobKind := ThumbnailBlob | AnimationBlob.

Definition BlobKind_eqb (a b : BlobKind) : bool :=
  match a, b with
  | ThumbnailBlob, ThumbnailBlob | AnimationBlob, AnimationBlob => true
  | _, _ => false
  end.

(** The calls the engine makes to the platform. *)
Inductive PlatformCall :=
| Console (l : LogEntry)
| CreateObjectURL (k : BlobKind) (u : url) (bytes : list byte)
| RevokeObjectURL (u : url)
| SetSrc (el : Elem) (v : option url)
| Observe (el : Elem)
| Unobserve (el : Elem)
| Disconnect
| AddClickListener
| RemoveClickListener
| ClearContainer.

(** The calls made so far, the most recent first. *)
Definition Trace := list PlatformCall.

(** The Blob URLs of kind [k] that are alive after [tr]: created and not
    revoked since. *)
Fixpoint alive (k : BlobKind) (tr : Trace) : list url :=
  match tr with
  | [] => []
  | CreateObjectURL k' u _ :: tr' =>
      if BlobKind_eqb k k' then u :: alive k tr' else alive k tr'
  | RevokeObjectURL u :: tr' =>
      filter (fun v => negb (Nat.eqb v u)) (alive k tr')
  | _ :: tr' => alive k tr'
  end.

(** The bytes a Blob URL was created over. *)
Fixpoint blob_of (tr : Trace) (u : url) : option (list byte) :=
  match tr with
  | [] => None
  | CreateObjectURL _ u' bytes :: tr' =>
      if Nat.eqb u' u then Some bytes else blob_of tr' u
  | _ :: tr' => blob_of tr' u
  end.

(** How often a URL was revoked. *)
Fixpoint revocations (tr : Trace) (u : url) : nat :=
  match tr with
  | [] => O
  | RevokeObjectURL u' :: tr' =>
      if Nat.eqb u' u then S (revocations tr' u) else revocations tr' u
  | _ :: tr' => revocations tr' u
  end.

(** What the engine last assigned to [el.src]; [None] when it never did,
    [Some None] when it assigned [undefined]. *)
Fixpoint displayed (tr : Trace) (el : Elem) : option (option url) :=
  match tr with
  | [] => None
  | SetSrc el' v :: tr' =>
      if same_object el' el then Some v else displayed tr' el
  | _ :: tr' => displayed tr' el
  end.

(** Whether the engine's IntersectionObserver observes [el]. *)
Fixpoint observing (tr : Trace) (el : Elem) : bool :=
  match tr with
  | [] => false
  | Observe el' :: tr' =>
      if same_object el' el then true else observing tr' el
  | Unobserve el' :: tr' =>
      if same_object el' el then false else observing tr' el
  | Disconnect :: _ => false
  | _ :: tr' => observing tr' el
  end.

(** The console, most recent line first. *)
Fixpoint console_of (tr : Trace) : list LogEntry :=
  match tr with
  | [] => []
  | Console l :: tr' => l :: console_of tr'
  | _ :: tr' => console_of tr'
  end.

(** Every moment of a trace: the trace itself and each of its pasts. *)
Fixpoint at_all_times (P : Trace -> Prop) (tr : Trace) : Prop :=
  match tr with
  | [] => P []
  | c :: tr' => P (c :: tr') /\ at_all_times P tr'
  end.

(** ** Typed arrays *)

Definition byteZ (b : byte) : Z := Z.of_N (Byte.to_N b).

(** [new DataView(buffer).getUint32(off, true)]: four bytes, little endian;
    [None] is the RangeError of a read past the end. *)
Definition getUint32 (buffer : list byte) (off : nat) : option Z :=
  match skipn off buffer with
  | b0 :: b1 :: b2 :: b3 :: _ =>
      Some (Z.lor (byteZ b0)
             (Z.lor (Z.shiftl (byteZ b1) 8)
               (Z.lor (Z.shiftl (byteZ b2) 16) (Z.shiftl (byteZ b3) 24))))
  | _ => None
  end.

Definition byteLength (buffer : list byte) : Z := Z.of_nat (List.length buffer).

(** [new Uint8Array(buffer, byteOffset, len)]: a view of [len] bytes from
    [byteOffset]; [None] is the RangeError of a view that does not fit. *)
Definition Uint8Array (buffer : list byte) (byteOffset len : Z) : option (list byte) :=
  if (byteOffset + len <=? byteLength buffer) && (0 <=? byteOffset) && (0 <=? len)
  then Some (firstn (Z.to_nat len) (skipn (Z.to_nat byteOffset) buffer))
  else None.

(** The clamping of one argument of [ArrayBuffer.prototype.slice]: a negative
    index counts from the end. *)
Definition relative_index (len i : Z) : Z :=
  if i <? 0 then Z.max (len + i) 0 else Z.min i len.

(** [buffer.slice(begin, end)]. *)
Definition ArrayBuffer_slice (buffer : list byte) (begin_ end_ : Z) : list byte :=
  let len := byteLength buffer in
  let first := relative_index len begin_ in
  let final := relative_index len end_ in
  let newLen := Z.max (final - first) 0 in
  firstn (Z.to_nat newLen) (skipn (Z.to_nat first) buffer).

(** ** Objects and maps *)

(** The value of the own property [id] of the index object. *)
Fixpoint obj_get (obj : IndexMap) (id : string) : option Meta :=
  match obj with
  | [] => None
  | (k, m) :: rest => if String.eqb k id then Some m else obj_get rest id
  end.

Definition Object_keys (obj : IndexMap) : list string := map fst obj.

(** The names every object inherits from [Object.prototype]: the members
    of the standard and the legacy accessors every browser has.  Their
    values are functions, and the prototype itself for [__proto__]: all
    truthy, none with a [width], [height], [thumb] or [anim]. *)
Definition Object_prototype : list string :=
  ["constructor"; "hasOwnProperty"; "isPrototypeOf"; "propertyIsEnumerable";
   "toLocaleString"; "toString"; "valueOf"; "__proto__";
   "__defineGetter__"; "__defineSetter__"; "__lookupGetter__"; "__lookupSetter__"].

Definition inherited (id : string) : bool :=
  existsb (String.eqb id) Object_prototype.

(** What [obj[id]] evaluates to on the index object: the entry of its own
    property [id]; failing that the member of [Object.prototype] of that
    name; failing that [undefined]. *)
Inductive Property :=
| Entry (meta : Meta)
| Inherited
| Absent.

Definition obj_lookup (obj : IndexMap) (id : string) : Property :=
  match obj_get obj id with
  | Some meta => Entry meta
  | None => if inherited id then Inherited else Absent
  end.

(** [Map.prototype.get] and [Map.prototype.set] on [thumbUrls]: a key that is
    already there keeps its place. *)
Fixpoint Map_get (m : list (string * url)) (id : string) : option url :=
  match m with
  | [] => None
  | (k, v) :: rest => if String.eqb k id then Some v else Map_get rest id
  end.

Fixpoint Map_set (m : list (string * url)) (id : string) (u : url) : list (string * url) :=
  match m with
  | [] => [(id, u)]
  | (k, v) :: rest =>
      if String.eqb k id then (k, u) :: rest else (k, v) :: Map_set rest id u
  end.

Definition Map_values (m : list (string * url)) : list url := map snd m.

(** ** The engine instance *)

(** [this.activeState]: three nullable fields. *)
Record ActiveState := {
  as_id : option string;
  imgEl : option Elem;
  animUrl : option url
}.

Definition idle : ActiveState :=
  {| as_id := None; imgEl := None; animUrl := None |}.

Record Engine := {
  buffer : option (list byte);
  indexMap : option IndexMap;
  payloadStart : Z;
  thumbUrls : list (string * url);
  activeState : ActiveState
}.

(** The instance together with the platform it runs on. *)
Record State := {
  engine : Engine;
  next_url : url;
  trace : Trace
}.

(** JavaScript truthiness of a nullable string: [null], [undefined] and the
    empty string are falsy. *)
Definition truthy (s : option string) : bool :=
  match s with
  | Some v => negb (String.eqb v "")
  | None => false
  end.

(** [a === id] for a nullable [a] and a string [id]. *)
Definition strict_eq (a : option string) (id : string) : bool :=
  match a with
  | Some v => String.eqb v id
  | None => false
  end.

(** ** The monad of the methods *)

Inductive Outcome (A : Type) :=
| Ok (a : A)
| Throw (e : JsError).

Arguments Ok {A} a.
Arguments Throw {A} e.

Definition Eng (A : Type) := State -> Outcome A * State.

Definition ret {A} (a : A) : Eng A := fun s => (Ok a, s).

Definition throw {A} (e : JsError) : Eng A := fun s => (Throw e, s).

Definition bind {A B} (m : Eng A) (k : A -> Eng B) : Eng B :=
  fun s =>
    match m s with
    | (Ok a, s') => k a s'
    | (Throw e, s') => (Throw e, s')
    end.

(** [try { m } catch (e) { h e }] *)
Definition try_catch {A} (m : Eng A) (h : JsError -> Eng A) : Eng A :=
  fun s =>
    match m s with
    | (Ok a, s') => (Ok a, s')
    | (Throw e, s') => h e s'
    end.

Declare Scope eng_scope.
Delimit Scope eng_scope with eng.

Notation "x <- m ;; k" := (bind m (fun x => k))
  (at level 61, m at next level, right associativity) : eng_scope.
Notation "m ;; k" := (bind m (fun _ => k))
  (at level 61, right associativity) : eng_scope.

Local Open Scope eng_scope.

Definition gets {A} (f : Engine -> A) : Eng A := fun s => (Ok (f (engine s)), s).

Definition modify (f : Engine -> Engine) : Eng unit :=
  fun s => (Ok tt, {| engine := f (engine s); next_url := next_url s; trace := trace s |}).

Definition call (c : PlatformCall) : Eng unit :=
  fun s => (Ok tt, {| engine := engine s; next_url := next_url s; trace := c :: trace s |}).

(** Reading a property of [null] or [undefined] is a TypeError. *)
Definition deref {A} (o : option A) : Eng A :=
  match o with
  | Some a => ret a
  | None => throw TypeError
  end.

(** A platform constructor that raises a RangeError. *)
Definition in_range {A} (o : option A) : Eng A :=
  match o with
  | Some a => ret a
  | None => throw RangeError
  end.

(** [for (const x of l) body(x)]: an exception leaves the loop. *)
Fixpoint for_of {A} (l : list A) (body : A -> Eng unit) : Eng unit :=
  match l with
  | [] => ret tt
  | x :: rest => body x ;; for_of rest body
  end.

Definition console (l : LogEntry) : Eng unit := call (Console l).

(** [URL.createObjectURL(new Blob([bytes], { type: 'image/webp' }))] *)
Definition createObjectURL (k : BlobKind) (bytes : list byte) : Eng url :=
  fun s =>
    (Ok (next_url s),
     {| engine := engine s;
        next_url := S (next_url s);
        trace := CreateObjectURL k (next_url s) bytes :: trace s |}).

(** [URL.revokeObjectURL(u)]; revoking [null] revokes nothing. *)
Definition revokeObjectURL (u : option url) : Eng unit :=
  match u with
  | Some v => call (RevokeObjectURL v)
  | None => ret tt
  end.

(** Field assignments of the instance. *)
Definition set_buffer (b : option (list byte)) (e : Engine) : Engine :=
  {| buffer := b; indexMap := indexMap e; payloadStart := payloadStart e;
     thumbUrls := thumbUrls e; activeState := activeState e |}.

Definition set_indexMap (i : option IndexMap) (e : Engine) : Engine :=
  {| buffer := buffer e; indexMap := i; payloadStart := payloadStart e;
     thumbUrls := thumbUrls e; activeState := activeState e |}.

Definition set_payloadStart (p : Z) (e : Engine) : Engine :=
  {| buffer := buffer e; indexMap := indexMap e; payloadStart := p;
     thumbUrls := thumbUrls e; activeState := activeState e |}.

Definition set_thumbUrls (t : list (string * url)) (e : Engine) : Engine :=
  {| buffer := buffer e; indexMap := indexMap e; payloadStart := payloadStart e;
     thumbUrls := t; activeState := activeState e |}.

Definition set_activeState (a : ActiveState) (e : Engine) : Engine :=
  {| buffer := buffer e; indexMap := indexMap e; payloadStart := payloadStart e;
     thumbUrls := thumbUrls e; activeState := a |}.

(** ** The methods of [GalleryEngine] *)

(** What [getItemData] returns; [item_url] is [None] when [thumbUrls] has no
    entry for the id ([undefined]), [item_width] and [item_height] are
    [None] when what the lookup found has no such property. *)
Record ItemData := {
  item_url : option url;
  item_width : option Z;
  item_height : option Z
}.

(** [new GalleryEngine(container)]: the fields of the constructor, and the
    click listener it binds. *)
Definition new_GalleryEngine : State :=
  {| engine := {| buffer := None; indexMap := None; payloadStart := 0;
                  thumbUrls := []; activeState := idle |};
     next_url := O;
     trace := [AddClickListener] |}.

Section Engine.

(** [JSON.parse(new TextDecoder().decode(bytes))], the platform's: [None]
    is its SyntaxError, [Some None] the value [null], [Some (Some obj)] an
    object.  The index texts covered are those whose value is [null] or an
    object of entries with integer [width], [height] and optional [thumb]
    and [anim] ranges. *)
Variable JSON_parse : list byte -> option (option IndexMap).

(** [stopActiveAnimation()] *)
Definition stopActiveAnimation : Eng unit :=
  a <- gets activeState ;;
  match as_id a with
  | None => ret tt
  | Some id =>
      if String.eqb id "" then ret tt
      else
        el <- deref (imgEl a) ;;
        call (Unobserve el) ;;
        t <- gets (fun e => Map_get (thumbUrls e) id) ;;
        call (SetSrc el t) ;;
        revokeObjectURL (animUrl a) ;;
        modify (set_activeState idle)
  end.

(** [playAnimation(id, imgEl)].  A member of [Object.prototype] passes the
    [!meta] guard and has no [anim]: [meta.anim.offset] is a TypeError. *)
Definition playAnimation (id : string) (el : Elem) : Eng unit :=
  im <- gets indexMap ;;
  obj <- deref im ;;
  match obj_lookup obj id with
  | Absent => console (WarnAnimMissing id)
  | Inherited => throw TypeError
  | Entry meta =>
      buf <- gets buffer ;;
      b <- deref buf ;;
      r <- deref (anim meta) ;;
      ps <- gets payloadStart ;;
      u <- createObjectURL AnimationBlob
             (ArrayBuffer_slice b (ps + offset r) (ps + offset r + length r)) ;;
      modify (set_activeState {| as_id := Some id; imgEl := Some el; animUrl := Some u |}) ;;
      call (SetSrc el (Some u)) ;;
      call (Observe el)
  end.

(** [handleTap(e)], on [e.target] *)
Definition handleTap (tgt : Elem) : Eng unit :=
  if negb (String.eqb (tagName tgt) "IMG") || negb (truthy (dataset_id tgt))
  then ret tt
  else
    match dataset_id tgt with
    | None => ret tt
    | Some id =>
        a <- gets activeState ;;
        if strict_eq (as_id a) id
        then console (LogStop id) ;; stopActiveAnimation
        else
          match as_id a with
          | Some prev =>
              if String.eqb prev "" then ret tt
              else console (LogStopPrevious prev) ;; stopActiveAnimation
          | None => ret tt
          end ;;
          console (LogPlay id) ;;
          playAnimation id tgt
    end.

(** The callback of the IntersectionObserver.  The observer is created with
    [threshold: 0]; the entries are what the platform hands over. *)
Definition observerCallback (entries : list IOEntry) : Eng unit :=
  for_of entries (fun entry =>
    a <- gets activeState ;;
    if negb (isIntersecting entry)
       && match imgEl a with
          | Some el => same_object (target entry) el
          | None => false
          end
    then stopActiveAnimation
    else ret tt).

(** The body of the loop of [initThumbnails], for one entry
    [[id, meta]] of the index. *)
Definition thumbnail_of (entry : string * Meta) : Eng unit :=
  let '(id, meta) := entry in
  buf <- gets buffer ;;
  b <- deref buf ;;
  r <- deref (thumb meta) ;;
  ps <- gets payloadStart ;;
  u <- createObjectURL ThumbnailBlob
         (ArrayBuffer_slice b (ps + offset r) (ps + offset r + length r)) ;;
  modify (fun e => set_thumbUrls (Map_set (thumbUrls e) id u) e).

(** [initThumbnails()] *)
Definition initThumbnails : Eng unit :=
  console LogThumbInit ;;
  im <- gets indexMap ;;
  obj <- deref im ;;
  for_of obj thumbnail_of ;;
  n <- gets (fun e => List.length (thumbUrls e)) ;;
  console (LogThumbDone n).

(** [load(binUrl)], resumed with what the fetch produced.  Before the
    first [await] the method only writes its first console line; all the
    rest runs after the body has arrived, in one turn of the event loop.
    [Object.keys(this.indexMap)] is a TypeError when the index text was
    [null]. *)
Definition load (fo : FetchOutcome) : Eng (option IndexMap) :=
  console LogLoading ;;
  try_catch
    (body <- match fo with
             | FetchRejected => throw FetchRejection
             | FetchResponse ok status body =>
                 if ok then ret body else throw (HttpStatusError status)
             end ;;
     modify (set_buffer (Some body)) ;;
     headerLen <- in_range (getUint32 body 0) ;;
     text <- in_range (Uint8Array body 4 headerLen) ;;
     match JSON_parse text with
     | None => throw SyntaxError
     | Some value =>
         modify (set_indexMap value) ;;
         modify (set_payloadStart (4 + headerLen)) ;;
         im <- gets indexMap ;;
         obj <- deref im ;;
         console (LogLoaded (List.length (Object_keys obj)) (List.length body)) ;;
         initThumbnails ;;
         gets indexMap
     end)
    (fun e => console (ErrLoadFailed e) ;; throw e).

(** [getItemData(id)].  A member of [Object.prototype] passes the guard:
    the object returned has the [thumbUrls] entry of the id, if any, and
    no width or height. *)
Definition getItemData (id : string) : Eng (option ItemData) :=
  im <- gets indexMap ;;
  match im with
  | None => console (WarnItemMissing id) ;; ret None
  | Some obj =>
      match obj_lookup obj id with
      | Absent => console (WarnItemMissing id) ;; ret None
      | Inherited =>
          t <- gets (fun e => Map_get (thumbUrls e) id) ;;
          ret (Some {| item_url := t; item_width := None; item_height := None |})
      | Entry meta =>
          t <- gets (fun e => Map_get (thumbUrls e) id) ;;
          ret (Some {| item_url := t; item_width := Some (width meta);
                       item_height := Some (height meta) |})
      end
  end.

(** [getAllIds()] *)
Definition getAllIds : Eng (list string) :=
  gets (fun e => match indexMap e with
                 | Some obj => Object_keys obj
                 | None => []
                 end).

(** [dispose()] *)
Definition dispose : Eng unit :=
  console LogDisposing ;;
  stopActiveAnimation ;;
  call RemoveClickListener ;;
  call Disconnect ;;
  t <- gets thumbUrls ;;
  for_of (Map_values t) (fun u => revokeObjectURL (Some u)) ;;
  modify (set_thumbUrls []) ;;
  modify (set_buffer None) ;;
  modify (set_indexMap None) ;;
  call ClearContainer ;;
  console LogDisposed.

(** ** Events *)

(** What can happen to an engine: the events of the page and the calls of
    its public methods. *)
Inductive Event :=
| Load (fo : FetchOutcome)
| Tap (tgt : Elem)
| Intersection (entries : list IOEntry)
| Stop
| GetItemData (id : string)
| GetAllIds
| Dispose.

(** One handler run to completion.  An exception leaves the handler; the
    instance stays as the handler left it. *)
Definition exec (ev : Event) (s : State) : State :=
  match ev with
  | Load fo => snd (load fo s)
  | Tap tgt => snd (handleTap tgt s)
  | Intersection entries => snd (observerCallback entries s)
  | Stop => snd (stopActiveAnimation s)
  | GetItemData id => snd (getItemData id s)
  | GetAllIds => snd (getAllIds s)
  | Dispose => snd (dispose s)
  end.

Definition run (evs : list Event) (s : State) : State :=
  fold_left (fun st ev => exec ev st) evs s.

(** The events of playback: everything but loading and disposal. *)
Definition playback_event (ev : Event) : bool :=
  match ev with
  | Load _ | Dispose => false
  | _ => true
  end.

(** A loaded engine: constructed, loaded with success, and then used. *)
Inductive loaded_engine : State -> Prop :=
| loaded_by_load : forall fo r s,
    load fo new_GalleryEngine = (Ok r, s) -> loaded_engine s
| loaded_then : forall ev s,
    loaded_engine s -> playback_event ev = true -> loaded_engine (exec ev s).

(** The two states of the playback controller. *)
Definition Idle (s : State) : Prop := activeState (engine s) = idle.

Definition Playing (id : string) (el : Elem) (u : url) (s : State) : Prop :=
  activeState (engine s) = {| as_id := Some id; imgEl := Some el; animUrl := Some u |}.

(** The states an engine can be in: constructed, then any events. *)
Inductive reachable : State -> Prop :=
| reach_new : reachable new_GalleryEngine
| reach_step : forall ev s, reachable s -> reachable (exec ev s).

End Engine.

(** ** Sample blobs

    Packed blobs in the layout of the build script (a 4-byte little-endian
    header with the length of the index text, the index text, the payload),
    and the values [JSON.parse] gives for their index texts. *)
Module Sample.

(** The bytes of an index text; the text is written with ['] where the
    JSON has its double quote. *)
Definition json_text (s : string) : list byte :=
  map (fun b => if Byte.eqb b "'"%byte then x22 else b) (list_byte_of_string s).

Definition low_byte (n : N) : byte :=
  match Byte.of_N (n mod 256) with
  | Some b => b
  | None => x00
  end.

(** [headerBuffer.writeUInt32LE(n, 0)] *)
Definition writeUInt32LE (n : N) : list byte :=
  [low_byte n; low_byte (n / 256); low_byte (n / 65536); low_byte (n / 16777216)].

(** [Buffer.concat([headerBuffer, jsonBuffer, ...buffers])] *)
Definition pack (text payload : list byte) : list byte :=
  writeUInt32LE (N.of_nat (List.length text)) ++ text ++ payload.

Definition payload12 : list byte :=
  [x10; x11; x12; x13; x20; x21; x22; x23; x24; x25; x26; x27].

(** The index of the scenario of the design: one entry, a 4-byte
    thumbnail and an 8-byte animation. *)
Definition text_a : list byte :=
  json_text "{'a':{'width':10,'height':10,'thumb':{'offset':0,'length':4},'anim':{'offset':4,'length':8}}}".

Definition index_a : IndexMap :=
  [("a", {| width := 10; height := 10;
            thumb := Some {| offset := 0; length := 4 |};
            anim := Some {| offset := 4; length := 8 |} |})].

(** Two entries sharing the 12 bytes of payload. *)
Definition text_ab : list byte :=
  json_text "{'a':{'width':10,'height':10,'thumb':{'offset':0,'length':2},'anim':{'offset':2,'length':4}},'b':{'width':20,'height':20,'thumb':{'offset':6,'length':2},'anim':{'offset':8,'length':4}}}".

Definition index_ab : IndexMap :=
  [("a", {| width := 10; height := 10;
            thumb := Some {| offset := 0; length := 2 |};
            anim := Some {| offset := 2; length := 4 |} |});
   ("b", {| width := 20; height := 20;
            thumb := Some {| offset := 6; length := 2 |};
            anim := Some {| offset := 8; length := 4 |} |})].

(** A malformed index: the first entry has no [thumb]. *)
Definition text_nothumb : list byte :=
  json_text "{'a':{'width':10,'height':10,'anim':{'offset':2,'length':4}},'b':{'width':20,'height':20,'thumb':{'offset':6,'length':2},'anim':{'offset':8,'length':4}}}".

Definition index_nothumb : IndexMap :=
  [("a", {| width := 10; height := 10;
            thumb := None;
            anim := Some {| offset := 2; length := 4 |} |});
   ("b", {| width := 20; height := 20;
            thumb := Some {| offset := 6; length := 2 |};
            anim := Some {| offset := 8; length := 4 |} |})].

(** An index whose second entry has a thumbnail and no [anim]. *)
Definition text_noanim : list byte :=
  json_text "{'a':{'width':10,'height':10,'thumb':{'offset':0,'length':2},'anim':{'offset':2,'length':4}},'b':{'width':20,'height':20,'thumb':{'offset':6,'length':2}}}".

Definition index_noanim : IndexMap :=
  [("a", {| width := 10; height := 10;
            thumb := Some {| offset := 0; length := 2 |};
            anim := Some {| offset := 2; length := 4 |} |});
   ("b", {| width := 20; height := 20;
            thumb := Some {| offset := 6; length := 2 |};
            anim := None |})].

(** An index whose animation range starts before the buffer: the text has
    96 bytes, the payload base is 100, and 100 - 104 is -4. *)
Definition text_negative : list byte :=
  json_text "{'a':{'width':10,'height':10,'thumb':{'offset':0,'length':4},'anim':{'offset':-104,'length':2}}}".

Definition index_negative : IndexMap :=
  [("a", {| width := 10; height := 10;
            thumb := Some {| offset := 0; length := 4 |};
            anim := Some {| offset := -104; length := 2 |} |})].

(** The index text [null]. *)
Definition text_null : list byte := json_text "null".

Definition bytes_eqb (a b : list byte) : bool :=
  if list_eq_dec Byte.byte_eq_dec a b then true else false.

(** [JSON.parse] on the index texts above; a SyntaxError on any other text
    of the samples. *)
Definition JSON_parse (text : list byte) : option (option IndexMap) :=
  if bytes_eqb text text_a then Some (Some index_a)
  else if bytes_eqb text text_ab then Some (Some index_ab)
  else if bytes_eqb text text_nothumb then Some (Some index_nothumb)
  else if bytes_eqb text text_noanim then Some (Some index_noanim)
  else if bytes_eqb text text_negative then Some (Some index_negative)
  else if bytes_eqb text text_null then Some None
  else None.

Definition blob_a : list byte := pack text_a payload12.
Definition blob_ab : list byte := pack text_ab payload12.
Definition blob_nothumb : list byte := pack text_nothumb payload12.
Definition blob_noanim : list byte := pack text_noanim payload12.

(** A blob whose header declares more index bytes than the blob has. *)
Definition blob_short : list byte := writeUInt32LE 200 ++ text_a.

Definition fetched (blob : list byte) : FetchOutcome := FetchResponse true 200 blob.

Definition img (ref : nat) (id : string) : Elem :=
  {| el_ref := ref; tagName := "IMG"; dataset_id := Some id |}.

Definition img_a : Elem := img 1 "a".
Definition img_b : Elem := img 2 "b".
Definition img_missing : Elem := img 3 "missing".
Definition img_constructor : Elem := img 4 "constructor".

(** The engine of the scenario, loaded. *)
Definition loaded_a : State := exec JSON_parse (Load (fetched blob_a)) new_GalleryEngine.
Definition loaded_ab : State := exec JSON_parse (Load (fetched blob_ab)) new_GalleryEngine.

(** The two-entry engine after a tap on the element of "a". *)
Definition playing_a : State := exec JSON_parse (Tap img_a) loaded_ab.

(** The engine of the index without an [anim] for "b", loaded, and after a
    tap on the element of "a". *)
Definition loaded_noanim : State :=
  exec JSON_parse (Load (fetched blob_noanim)) new_GalleryEngine.

Definition noanim_playing_a : State := exec JSON_parse (Tap img_a) loaded_noanim.


(** The two-entry engine playing "b", reloaded with the one-entry blob of
    the scenario: the index has no "b" any more, and "b" is still playing. *)
Definition reloaded_playing_b : State :=
  run JSON_parse [Load (fetched blob_ab); Tap img_b; Load (fetched blob_a)]
    new_GalleryEngine.

(** The engine after the load of the malformed index failed. *)
Definition after_nothumb : State :=
  exec JSON_parse (Load (fetched blob_nothumb)) new_GalleryEngine.

(** The same blob loaded twice, and the engine disposed. *)
Definition reloaded_and_disposed : State :=
  run JSON_parse [Load (fetched blob_ab); Load (fetched blob_ab); Dispose]
    new_GalleryEngine.

(** The element of "a" seen half inside the viewport, and seen outside. *)
Definition entry_half : IOEntry :=
  {| target := img_a; isIntersecting := true; intersectionRatio := 1 # 2 |}.

Definition entry_gone : IOEntry :=
  {| target := img_a; isIntersecting := false; intersectionRatio := 0 |}.

End Sample.

(** ** The vocabulary of the properties *)

(** The state after one console line. *)
Definition logged (l : LogEntry) (s : State) : State :=
  {| engine := engine s; next_url := next_url s; trace := Console l :: trace s |}.

(** The state after [stopActiveAnimation()] ran from [Playing id el u]. *)
Definition stopped (id : string) (el : Elem) (u : url) (s : State) : State :=
  {| engine := set_activeState idle (engine s);
     next_url := next_url s;
     trace := RevokeObjectURL u
              :: SetSrc el (Map_get (thumbUrls (engine s)) id)
              :: Unobserve el :: trace s |}.

(** The state after [playAnimation(id, el)] created a handle over [bytes]. *)
Definition played (id : string) (el : Elem) (bytes : list byte) (s : State) : State :=
  {| engine := set_activeState
                 {| as_id := Some id; imgEl := Some el; animUrl := Some (next_url s) |}
                 (engine s);
     next_url := S (next_url s);
     trace := Observe el :: SetSrc el (Some (next_url s))
              :: CreateObjectURL AnimationBlob (next_url s) bytes :: trace s |}.

(** The bytes of [buf] at the positions [start], ..., [start + len - 1],
    as far as [buf] reaches. *)
Definition byte_range (buf : list byte) (start len : Z) : list byte :=
  firstn (Z.to_nat len) (skipn (Z.to_nat start) buf).

(** The bytes [buffer.slice] cuts out for a range of the index. *)
Definition slice_of (buf : list byte) (ps : Z) (r : Range) : list byte :=
  ArrayBuffer_slice buf (ps + offset r) (ps + offset r + length r).

(** Blob URLs are handed out in increasing order: every URL a trace mentions
    is below [n], and below every URL created after it. *)
Fixpoint urls_below (n : nat) (tr : Trace) : Prop :=
  match tr with
  | [] => True
  | CreateObjectURL _ u _ :: tr' => (u < n)%nat /\ urls_below u tr'
  | RevokeObjectURL u :: tr' => (u < n)%nat /\ urls_below n tr'
  | _ :: tr' => urls_below n tr'
  end.

(** At most one animation handle is alive. *)
Definition single_active (tr : Trace) : Prop :=
  (List.length (alive AnimationBlob tr) <= 1)%nat.

(** An element the click handler accepts, and the id it carries. *)
Definition tappable (tgt : Elem) (id : string) : Prop :=
  tagName tgt = "IMG" /\ dataset_id tgt = Some id /\ id <> "".

(** The state after one turn of the loop, for an entry with a [thumb]. *)
Definition thumbed (id : string) (bytes : list byte) (s : State) : State :=
  {| engine := set_thumbUrls (Map_set (thumbUrls (engine s)) id (next_url s)) (engine s);
     next_url := S (next_url s);
     trace := CreateObjectURL ThumbnailBlob (next_url s) bytes :: trace s |}.

Definition has_thumb (e : string * Meta) : bool :=
  match thumb (snd e) with Some _ => true | None => false end.

(** The state the loop leaves: the entries are handled in order, up to the
    first one without a [thumb]. *)
Fixpoint materialized (buf : list byte) (ps : Z) (l : IndexMap) (s : State) : State :=
  match l with
  | [] => s
  | (id, m) :: rest =>
      match thumb m with
      | Some r => materialized buf ps rest (thumbed id (slice_of buf ps r) s)
      | None => s
      end
  end.

(** The state after [this.buffer = await res.arrayBuffer()]. *)
Definition buffered (body : list byte) (s : State) : State :=
  {| engine := set_buffer (Some body) (engine s);
     next_url := next_url s; trace := trace s |}.

(** The state after the index and the payload base were stored. *)
Definition indexed (obj : IndexMap) (headerLen : Z) (s : State) : State :=
  {| engine := set_payloadStart (4 + headerLen) (set_indexMap (Some obj) (engine s));
     next_url := next_url s; trace := trace s |}.

(** The same for the index text [null]. *)
Definition unindexed (headerLen : Z) (s : State) : State :=
  {| engine := set_payloadStart (4 + headerLen) (set_indexMap None (engine s));
     next_url := next_url s; trace := trace s |}.

(** The state the [catch] block of [load] leaves. *)
Definition failed (e : JsError) (s : State) : State := logged (ErrLoadFailed e) s.

(** What [load] returns and the state it leaves, case by case. *)
Definition load_closed (JSON_parse : list byte -> option (option IndexMap))
    (fo : FetchOutcome) (s : State) : Outcome (option IndexMap) * State :=
  let s0 := logged LogLoading s in
  match fo with
  | FetchRejected => (Throw FetchRejection, failed FetchRejection s0)
  | FetchResponse false status _ =>
      (Throw (HttpStatusError status), failed (HttpStatusError status) s0)
  | FetchResponse true _ body =>
      let s1 := buffered body s0 in
      match getUint32 body 0 with
      | None => (Throw RangeError, failed RangeError s1)
      | Some headerLen =>
          match Uint8Array body 4 headerLen with
          | None => (Throw RangeError, failed RangeError s1)
          | Some text =>
              match JSON_parse text with
              | None => (Throw SyntaxError, failed SyntaxError s1)
              | Some None => (Throw TypeError, failed TypeError (unindexed headerLen s1))
              | Some (Some obj) =>
                  let s2 := logged (LogLoaded (List.length (Object_keys obj))
                                      (List.length body))
                              (indexed obj headerLen s1) in
                  let s3 := materialized body (4 + headerLen) obj
                              (logged LogThumbInit s2) in
                  if forallb has_thumb obj
                  then (Ok (Some obj),
                        logged (LogThumbDone (List.length (thumbUrls (engine s3)))) s3)
                  else (Throw TypeError, failed TypeError s3)
              end
          end
      end
  end.

(** The thumbnail cache holds exactly the thumbnail handles that are alive,
    each once, and none of them was revoked. *)
Definition cache_ok (s : State) : Prop :=
  (forall t, In t (alive ThumbnailBlob (trace s))
             <-> In t (Map_values (thumbUrls (engine s))))
  /\ NoDup (Map_values (thumbUrls (engine s)))
  /\ (forall t, In t (Map_values (thumbUrls (engine s))) -> revocations (trace s) t = O).

(** Every entry of the index has its thumbnail handle in the cache, created
    over the bytes [buffer.slice] cut out for its [thumb] range. *)
Definition thumbs_ok (obj : IndexMap) (buf : list byte) (ps : Z) (s : State) : Prop :=
  forall id m, obj_get obj id = Some m ->
    exists r t, thumb m = Some r
      /\ Map_get (thumbUrls (engine s)) id = Some t
      /\ blob_of (trace s) t = Some (slice_of buf ps r).

(** The active playback state is empty and no animation handle is alive, or
    it is fully populated and its handle is the one animation handle alive. *)
Definition active_ok (obj : IndexMap) (buf : list byte) (ps : Z) (s : State) : Prop :=
  (Idle s /\ alive AnimationBlob (trace s) = [])
  \/ (exists id el u m r,
        id <> "" /\ Playing id el u s
        /\ alive AnimationBlob (trace s) = [u]
        /\ obj_get obj id = Some m /\ anim m = Some r
        /\ blob_of (trace s) u = Some (slice_of buf ps r)
        /\ observing (trace s) el = true
        /\ displayed (trace s) el = Some (Some u)
        /\ revocations (trace s) u = O).

Record Inv (obj : IndexMap) (buf : list byte) (ps : Z) (s : State) : Prop := {
  inv_index : indexMap (engine s) = Some obj;
  inv_buffer : buffer (engine s) = Some buf;
  inv_payload : payloadStart (engine s) = ps;
  inv_urls : urls_below (next_url s) (trace s);
  inv_cache : cache_ok s;
  inv_thumbs : thumbs_ok obj buf ps s;
  inv_active : active_ok obj buf ps s;
  inv_times : at_all_times single_active (trace s)
}.

(** The state in which [load] calls [initThumbnails], after its first line
    was written. *)
Definition before_thumbnails (body : list byte) (obj : IndexMap) (headerLen : Z)
    (s : State) : State :=
  logged LogThumbInit
    (logged (LogLoaded (List.length (Object_keys obj)) (List.length body))
       (indexed obj headerLen (buffered body (logged LogLoading s)))).

(** The state a successful [load] leaves. *)
Definition after_load (body : list byte) (obj : IndexMap) (headerLen : Z)
    (s : State) : State :=
  let s3 := materialized body (4 + headerLen) obj (before_thumbnails body obj headerLen s) in
  logged (LogThumbDone (List.length (thumbUrls (engine s3)))) s3.

(** An entry makes the callback stop the playback when it reports no
    intersection for the element that is playing. *)
Definition reclaims (el : Elem) (entry : IOEntry) : bool :=
  negb (isIntersecting entry) && same_object (target entry) el.

(** An id that has a live handle in the cache still has one after the loop. *)
Definition covered (s : State) (id : string) : Prop :=
  exists t, Map_get (thumbUrls (engine s)) id = Some t
            /\ In t (alive ThumbnailBlob (trace s)).

(** The trace after the loop of [dispose] revoked the URLs [us] in order. *)
Fixpoint revoke_each (us : list url) (tr : Trace) : Trace :=
  match us with
  | [] => tr
  | u :: rest => revoke_each rest (RevokeObjectURL u :: tr)
  end.

(** The state [dispose()] leaves, from the state [s1] in which its call of
    [stopActiveAnimation()] returned. *)
Definition disposed (s1 : State) : State :=
  {| engine := set_indexMap None (set_buffer None (set_thumbUrls [] (engine s1)));
     next_url := next_url s1;
     trace := Console LogDisposed :: ClearContainer
              :: revoke_each (Map_values (thumbUrls (engine s1)))
                   (Disconnect :: RemoveClickListener :: trace s1) |}.

(** Fully empty, or fully populated with a non-empty id. *)
Definition whole (a : ActiveState) : Prop :=
  a = idle
  \/ exists id el u, id <> ""
       /\ a = {| as_id := Some id; imgEl := Some el; animUrl := Some u |}.

(** ** The data a load leaves *)

(** Two instances hold the same loaded data: buffer, index, payload base
    and thumbnail cache. *)
Definition same_data (e e' : Engine) : Prop :=
  buffer e' = buffer e /\ indexMap e' = indexMap e
  /\ payloadStart e' = payloadStart e /\ thumbUrls e' = thumbUrls e.

(** A computation that leaves the loaded data alone, whatever it returns. *)
Definition keeps_data {A} (m : Eng A) : Prop :=
  forall s, same_data (engine s) (engine (snd (m s))).

(** ** The build script

    [scripts/build-bin.js] packs the [.webp] files of the assets directory
    into the blob the engine loads.  What it gets from the file system and
    from the image library is its input here: for each file its name, its
    bytes, and what [sharp] made of it. *)
Module Build.

(** What [sharp] produced for a file: the metadata read from it and the
    thumbnail buffer. *)
Record Processed := {
  meta_width : Z;
  meta_height : Z;
  thumbBuffer : list byte
}.

(** An entry of the assets directory as [readdirSync] lists it, with the
    bytes [readFileSync] reads from it; [processed] is [None] when [sharp]
    threw on it.  The directory exists and every listed entry can be read:
    the script stops with an error otherwise. *)
Record AssetFile := {
  file : string;
  animBuffer : list byte;
  processed : option Processed
}.

(** [f.endsWith(suffix)] *)
Fixpoint endsWith (suffix s : string) : bool :=
  String.eqb s suffix
  || match s with
     | EmptyString => false
     | String _ rest => endsWith suffix rest
     end.

Fixpoint drop (n : nat) (s : string) : string :=
  match n, s with
  | O, _ => s
  | S n', String _ rest => drop n' rest
  | S _, EmptyString => EmptyString
  end.

(** [s.replace(pattern, '')] for a string pattern: its first occurrence is
    taken out. *)
Fixpoint remove_first (pattern s : string) : string :=
  if String.prefix pattern s then drop (String.length pattern) s
  else match s with
       | EmptyString => EmptyString
       | String c rest => String c (remove_first pattern rest)
       end.

(** [file.replace('.webp', '')] *)
Definition id_of (f : AssetFile) : string := remove_first ".webp" (file f).

(** The property keys JavaScript lists first, in ascending numeric order:
    the array indices, that is the canonical decimal numerals below
    [2^32 - 1].  Every other string key is listed in insertion order. *)
Definition digit (c : Ascii.ascii) : option N :=
  let n := Ascii.N_of_ascii c in
  if ((48 <=? n) && (n <=? 57))%N then Some (n - 48)%N else None.

Fixpoint digits (acc : N) (s : string) : option N :=
  match s with
  | EmptyString => Some acc
  | String c rest =>
      match digit c with
      | Some d => digits (10 * acc + d)%N rest
      | None => None
      end
  end.

Definition array_index (s : string) : option N :=
  match s with
  | EmptyString => None
  | String c rest =>
      if (Ascii.N_of_ascii c =? 48)%N && negb (String.eqb rest EmptyString) then None
      else match digits 0 s with
           | Some n => if (n <? 2 ^ 32 - 1)%N then Some n else None
           | None => None
           end
  end.

(** [indexMap[id] = meta]: a property that exists keeps its place; a new
    array index goes among the array indices, in numeric order; any other
    new key goes last.  [__proto__] is no property of the object: assigning
    an object to it sets the prototype and leaves the properties alone. *)
Fixpoint obj_replace (obj : IndexMap) (id : string) (m : Meta) : IndexMap :=
  match obj with
  | [] => []
  | (k, v) :: rest =>
      if String.eqb k id then (k, m) :: rest else (k, v) :: obj_replace rest id m
  end.

Fixpoint obj_insert_index (obj : IndexMap) (n : N) (id : string) (m : Meta) : IndexMap :=
  match obj with
  | [] => [(id, m)]
  | (k, v) :: rest =>
      match array_index k with
      | Some j =>
          if (j <? n)%N then (k, v) :: obj_insert_index rest n id m
          else (id, m) :: (k, v) :: rest
      | None => (id, m) :: (k, v) :: rest
      end
  end.

Definition obj_set (obj : IndexMap) (id : string) (m : Meta) : IndexMap :=
  if String.eqb id "__proto__" then obj
  else match obj_get obj id with
       | Some _ => obj_replace obj id m
       | None =>
           match array_index id with
           | Some n => obj_insert_index obj n id m
           | None => obj ++ [(id, m)]
           end
       end.

(** The variables of the loop: [offset], [indexMap], [buffers]. *)
Record Packing := {
  next_offset : Z;
  index : IndexMap;
  buffers : list (list byte)
}.

Definition start : Packing :=
  {| next_offset := 0; index := []; buffers := [] |}.

(** One turn of the loop.  A file [sharp] threw on is skipped by the
    [catch] with its [continue]. *)
Definition pack_file (st : Packing) (f : AssetFile) : Packing :=
  match processed f with
  | None => st
  | Some p =>
      let thumbLen := byteLength (thumbBuffer p) in
      let animLen := byteLength (animBuffer f) in
      {| next_offset := next_offset st + (thumbLen + animLen);
         index := obj_set (index st) (id_of f)
                    {| width := meta_width p;
                       height := meta_height p;
                       thumb := Some {| offset := next_offset st; length := thumbLen |};
                       anim := Some {| offset := next_offset st + thumbLen;
                                       length := animLen |} |};
         buffers := buffers st ++ [thumbBuffer p; animBuffer f] |}
  end.

Definition pack (files : list AssetFile) : Packing :=
  fold_left pack_file files start.

(** The byte of a number's low eight bits. *)
Definition byte_of_Z (z : Z) : byte :=
  match Byte.of_N (Z.to_N (Z.land z 255)) with
  | Some b => b
  | None => x00
  end.

(** [headerBuffer.writeUInt32LE(value, 0)] on a 4-byte buffer; [None] is
    the RangeError of a value that is not an unsigned 32-bit integer. *)
Definition writeUInt32LE (value : Z) : option (list byte) :=
  if (0 <=? value) && (value <? 2 ^ 32)
  then Some [byte_of_Z value; byte_of_Z (Z.shiftr value 8);
             byte_of_Z (Z.shiftr value 16); byte_of_Z (Z.shiftr value 24)]
  else None.

(** How a run of the script ends. *)
Inductive Outcome :=
| NoFiles
| HeaderOutOfRange
| Written (finalBuffer : list byte).

(** The [.webp] files of the directory listing. *)
Definition webp_files (dir : list AssetFile) : list AssetFile :=
  filter (fun f => endsWith ".webp" (file f)) dir.

(** [build()], on the listing of the assets directory.  [JSON_stringify]
    is [Buffer.from(JSON.stringify(indexMap), 'utf-8')], the platform's. *)
Definition build (JSON_stringify : IndexMap -> list byte) (dir : list AssetFile)
    : Outcome :=
  match webp_files dir with
  | [] => NoFiles
  | files =>
      let st := pack files in
      let jsonBuffer := JSON_stringify (index st) in
      match writeUInt32LE (byteLength jsonBuffer) with
      | None => HeaderOutOfRange
      | Some headerBuffer =>
          Written (headerBuffer ++ jsonBuffer ++ List.concat (buffers st))
      end
  end.

(** The files that end up in the blob, and their ids. *)
Definition packed_files (dir : list AssetFile) : list AssetFile :=
  filter (fun f => match processed f with Some _ => true | None => false end)
    (webp_files dir).

Definition packed_ids (dir : list AssetFile) : list string :=
  map id_of (packed_files dir).

End Build.

(** A directory for the scenario of the design: the animation of "a", a
    file that is no [.webp], and a [.webp] file [sharp] cannot read. *)
Module BuildSample.

Definition a_webp : Build.AssetFile :=
  {| Build.file := "a.webp";
     Build.animBuffer := [x20; x21; x22; x23; x24; x25; x26; x27];
     Build.processed :=
       Some {| Build.meta_width := 10; Build.meta_height := 10;
               Build.thumbBuffer := [x10; x11; x12; x13] |} |}.

Definition notes_txt : Build.AssetFile :=
  {| Build.file := "notes.txt"; Build.animBuffer := [x61];
     Build.processed := None |}.

Definition broken_webp : Build.AssetFile :=
  {| Build.file := "broken.webp"; Build.animBuffer := [x00; x01];
     Build.processed := None |}.

Definition dir : list Build.AssetFile := [notes_txt; broken_webp; a_webp].

(** [JSON.stringify] on the index of the scenario. *)
Definition JSON_stringify (obj : IndexMap) : list byte :=
  match obj with
  | [(id, _)] => if String.eqb id "a" then Sample.text_a else []
  | _ => []
  end.

End BuildSample.

(** Whether [sharp] read the file. *)
Definition is_processed (f : Build.AssetFile) : bool :=
  match Build.processed f with Some _ => true | None => false end.

(** The payload a packing has gathered: [Buffer.concat(buffers)]. *)
Definition payload_of (st : Build.Packing) : list byte :=
  List.concat (Build.buffers st).

(** The index of a packing has an entry for [id] with the given metadata,
    whose ranges lie in the payload, the animation right after the
    thumbnail, and read back the two buffers. *)
Definition reads_back (st : Build.Packing) (id : string) (w h : Z)
    (thumbBytes animBytes : list byte) : Prop :=
  exists rt ra,
    obj_get (Build.index st) id
    = Some {| width := w; height := h; thumb := Some rt; anim := Some ra |}
    /\ 0 <= offset rt
    /\ length rt = byteLength thumbBytes
    /\ offset ra = offset rt + length rt
    /\ length ra = byteLength animBytes
    /\ offset ra + length ra <= byteLength (payload_of st)
    /\ byte_range (payload_of st) (offset rt) (length rt) = thumbBytes
    /\ byte_range (payload_of st) (offset ra) (length ra) = animBytes.

(** The running offset of a packing is the length of its payload. *)
Definition offset_ok (st : Build.Packing) : Prop :=
  Build.next_offset st = byteLength (payload_of st).

(** ** Facts about traces *)

Lemma urls_below_mono : forall tr n m,
  urls_below n tr -> (n <= m)%nat -> urls_below m tr.
Proof.
  induction tr as [|c tr IH]; intros n m H Hle; cbn in *; auto.
  destruct c; cbn in *; eauto.
  - destruct H; split; [lia | assumption].
  - destruct H; split; [lia | eauto].
Qed.

Lemma alive_below : forall k tr n u,
  urls_below n tr -> In u (alive k tr) -> (u < n)%nat.
Proof.
  induction tr as [|c tr IH]; intros n u H Hin; cbn in *; [contradiction|].
  destruct c; cbn in *; eauto.
  - destruct H as [Hu H]. destruct (BlobKind_eqb k k0).
    + destruct Hin as [<-|Hin]; [assumption|].
      specialize (IH _ _ H Hin). lia.
    + specialize (IH _ _ H Hin). lia.
  - destruct H as [_ H]. apply filter_In in Hin. destruct Hin; eauto.
Qed.

Lemma blob_below : forall tr n u b,
  urls_below n tr -> blob_of tr u = Some b -> (u < n)%nat.
Proof.
  induction tr as [|c tr IH]; intros n u b H Hb; cbn in *; [discriminate|].
  destruct c; cbn in *; eauto.
  - destruct H as [Hu H]. destruct (Nat.eqb_spec u0 u).
    + subst; assumption.
    + specialize (IH _ _ _ H Hb). lia.
  - destruct H; eauto.
Qed.

Lemma revoked_below : forall tr n u,
  urls_below n tr -> revocations tr u <> O -> (u < n)%nat.
Proof.
  induction tr as [|c tr IH]; intros n u H Hr; cbn in *; [congruence|].
  destruct c; cbn in *; eauto.
  - destruct H as [Hu H]. specialize (IH _ _ H Hr). lia.
  - destruct H as [Hu H]. destruct (Nat.eqb_spec u0 u); subst; eauto.
Qed.

Lemma fresh_not_revoked : forall tr n,
  urls_below n tr -> revocations tr n = O.
Proof.
  intros tr n H. destruct (revocations tr n) eqn:E; [reflexivity|].
  assert (n < n)%nat by (eapply revoked_below; eauto; congruence). lia.
Qed.

Lemma fresh_no_blob : forall tr n,
  urls_below n tr -> blob_of tr n = None.
Proof.
  intros tr n H. destruct (blob_of tr n) eqn:E; [|reflexivity].
  assert (n < n)%nat by (eapply blob_below; eauto). lia.
Qed.

(** A URL is a thumbnail handle or an animation handle, never both. *)
Lemma alive_kinds_disjoint : forall tr n u,
  urls_below n tr ->
  In u (alive ThumbnailBlob tr) -> In u (alive AnimationBlob tr) -> False.
Proof.
  induction tr as [|c tr IH]; intros n u H Ht Ha; cbn in *; [contradiction|].
  destruct c; cbn in *; eauto.
  - destruct H as [Hu H]. destruct k; cbn in *.
    + destruct Ht as [<-|Ht]; [|eauto].
      pose proof (alive_below _ _ _ _ H Ha) as Hlt. lia.
    + destruct Ha as [<-|Ha]; [|eauto].
      pose proof (alive_below _ _ _ _ H Ht) as Hlt. lia.
  - destruct H as [_ H].
    apply filter_In in Ht. apply filter_In in Ha. destruct Ht, Ha. eauto.
Qed.

Lemma at_all_times_now : forall P tr, at_all_times P tr -> P tr.
Proof. intros P [|c tr] H; [exact H|exact (proj1 H)]. Qed.

Lemma filter_other : forall (l : list url) u t,
  In t l -> t <> u -> In t (filter (fun v => negb (Nat.eqb v u)) l).
Proof.
  intros l u t Hin Hne. apply filter_In. split; [assumption|].
  destruct (Nat.eqb_spec t u); [contradiction|reflexivity].
Qed.

Lemma filter_single : forall u : url,
  filter (fun v => negb (Nat.eqb v u)) [u] = [].
Proof. intros u. cbn. rewrite Nat.eqb_refl. reflexivity. Qed.

Lemma same_object_refl : forall el, same_object el el = true.
Proof. intros el. apply Nat.eqb_refl. Qed.

(** ** Facts about the typed arrays *)

Lemma byteZ_nonneg : forall b, 0 <= byteZ b.
Proof. intros b. unfold byteZ. lia. Qed.

Lemma little_endian_nonneg : forall b0 b1 b2 b3,
  0 <= Z.lor (byteZ b0)
         (Z.lor (Z.shiftl (byteZ b1) 8)
            (Z.lor (Z.shiftl (byteZ b2) 16) (Z.shiftl (byteZ b3) 24))).
Proof.
  intros b0 b1 b2 b3.
  repeat (apply Z.lor_nonneg; split);
    rewrite ?Z.shiftl_nonneg; apply byteZ_nonneg.
Qed.

Lemma getUint32_nonneg : forall buf off L, getUint32 buf off = Some L -> 0 <= L.
Proof.
  intros buf off L H. unfold getUint32 in H.
  destruct (skipn off buf) as [|b0 [|b1 [|b2 [|b3 rest]]]]; try discriminate.
  injection H as <-. apply little_endian_nonneg.
Qed.

(** [buffer.slice(start, start + len)] is the byte range it names, when the
    range starts at a position and has a length. *)
Lemma slice_is_byte_range : forall buf start len,
  0 <= start -> 0 <= len ->
  ArrayBuffer_slice buf start (start + len) = byte_range buf start len.
Proof.
  intros buf start len Hs Hl.
  unfold ArrayBuffer_slice, byte_range, relative_index, byteLength.
  destruct (Z.ltb_spec start 0); [lia|].
  destruct (Z.ltb_spec (start + len) 0); [lia|].
  set (n := List.length buf).
  destruct (Z_le_gt_dec start (Z.of_nat n)) as [Hin|Hout].
  - rewrite (Z.min_l start) by lia.
    destruct (Z_le_gt_dec (start + len) (Z.of_nat n)) as [Hfit|Hover].
    + rewrite Z.min_l by lia. f_equal. lia.
    + rewrite Z.min_r by lia.
      rewrite !firstn_all2; [reflexivity| |]; rewrite length_skipn; subst n; lia.
  - rewrite (Z.min_r start) by lia. rewrite Z.min_r by lia.
    rewrite Z.sub_diag. cbn [Z.max Z.to_nat firstn].
    rewrite (skipn_all2 buf (n := Z.to_nat start)) by (subst n; lia).
    rewrite firstn_nil. reflexivity.
Qed.

(** A byte range that lies inside the buffer has [len] bytes, the byte at
    its position [i] being the byte of the buffer at [start + i]. *)
Lemma byte_range_exact : forall buf start len,
  0 <= start -> 0 <= len -> start + len <= byteLength buf ->
  List.length (byte_range buf start len) = Z.to_nat len
  /\ forall i, (i < Z.to_nat len)%nat ->
       nth_error (byte_range buf start len) i = nth_error buf (Z.to_nat start + i).
Proof.
  intros buf start len Hs Hl Hfit. unfold byte_range, byteLength in *. split.
  - rewrite length_firstn, length_skipn. lia.
  - intros i Hi. rewrite nth_error_firstn.
    destruct (Nat.ltb_spec i (Z.to_nat len)); [|lia].
    apply nth_error_skipn.
Qed.

(** ** Facts about the index object and the thumbnail map *)

Lemma Map_get_set_same : forall m id u, Map_get (Map_set m id u) id = Some u.
Proof.
  induction m as [|[k v] m IH]; intros id u; cbn.
  - rewrite String.eqb_refl. reflexivity.
  - destruct (String.eqb_spec k id); cbn.
    + subst. rewrite String.eqb_refl. reflexivity.
    + destruct (String.eqb_spec k id); [contradiction|]. apply IH.
Qed.

Lemma Map_get_set_other : forall m id id' u,
  id <> id' -> Map_get (Map_set m id u) id' = Map_get m id'.
Proof.
  induction m as [|[k v] m IH]; intros id id' u Hne; cbn.
  - destruct (String.eqb_spec id id'); [contradiction|reflexivity].
  - destruct (String.eqb_spec k id); cbn.
    + subst. destruct (String.eqb_spec id id'); [contradiction|reflexivity].
    + destruct (String.eqb_spec k id'); [reflexivity|]. apply IH; assumption.
Qed.

Lemma obj_get_In_keys : forall obj id m,
  obj_get obj id = Some m -> In id (Object_keys obj).
Proof.
  induction obj as [|[k v] obj IH]; intros id m H; cbn in *; [discriminate|].
  destruct (String.eqb_spec k id); [left; assumption|right; eauto].
Qed.

Lemma obj_get_not_In : forall obj id,
  ~ In id (Object_keys obj) -> obj_get obj id = None.
Proof.
  induction obj as [|[k v] obj IH]; intros id H; cbn in *; [reflexivity|].
  destruct (String.eqb_spec k id); [tauto|]. apply IH. tauto.
Qed.

(** ** The steps of the playback controller in closed form *)

Lemma stop_when_idle : forall s,
  as_id (activeState (engine s)) = None -> stopActiveAnimation s = (Ok tt, s).
Proof.
  intros s H. unfold stopActiveAnimation, bind, gets. rewrite H. reflexivity.
Qed.

Lemma stop_when_playing : forall s id el u,
  Playing id el u s -> id <> "" ->
  stopActiveAnimation s = (Ok tt, stopped id el u s).
Proof.
  intros s id el u H Hid. unfold Playing in H.
  unfold stopActiveAnimation, bind, gets. rewrite H. cbn.
  destruct (String.eqb_spec id ""); [contradiction|]. reflexivity.
Qed.

Lemma lookup_entry : forall obj id m,
  obj_get obj id = Some m -> obj_lookup obj id = Entry m.
Proof. intros obj id m H. unfold obj_lookup. rewrite H. reflexivity. Qed.

Lemma lookup_absent : forall obj id,
  obj_get obj id = None -> inherited id = false -> obj_lookup obj id = Absent.
Proof. intros obj id H Hi. unfold obj_lookup. rewrite H, Hi. reflexivity. Qed.

Lemma lookup_inherited : forall obj id,
  obj_get obj id = None -> inherited id = true -> obj_lookup obj id = Inherited.
Proof. intros obj id H Hi. unfold obj_lookup. rewrite H, Hi. reflexivity. Qed.

Lemma play_known : forall s id el obj m b r,
  indexMap (engine s) = Some obj -> obj_get obj id = Some m ->
  buffer (engine s) = Some b -> anim m = Some r ->
  playAnimation id el s
  = (Ok tt, played id el (slice_of b (payloadStart (engine s)) r) s).
Proof.
  intros s id el obj m b r Hi Hm Hb Hr.
  unfold playAnimation, bind, gets. rewrite Hi. cbn.
  rewrite (lookup_entry _ _ _ Hm). cbn.
  rewrite Hb. cbn. rewrite Hr. reflexivity.
Qed.

Lemma play_unknown : forall s id el obj,
  indexMap (engine s) = Some obj -> obj_get obj id = None ->
  inherited id = false ->
  playAnimation id el s = (Ok tt, logged (WarnAnimMissing id) s).
Proof.
  intros s id el obj Hi Hm Hinh.
  unfold playAnimation, bind, gets. rewrite Hi. cbn.
  rewrite (lookup_absent _ _ Hm Hinh). reflexivity.
Qed.

Lemma play_inherited : forall s id el obj,
  indexMap (engine s) = Some obj -> obj_get obj id = None ->
  inherited id = true ->
  playAnimation id el s = (Throw TypeError, s).
Proof.
  intros s id el obj Hi Hm Hinh.
  unfold playAnimation, bind, gets. rewrite Hi. cbn.
  rewrite (lookup_inherited _ _ Hm Hinh). reflexivity.
Qed.

Lemma play_without_anim : forall s id el obj m b,
  indexMap (engine s) = Some obj -> obj_get obj id = Some m ->
  buffer (engine s) = Some b -> anim m = None ->
  playAnimation id el s = (Throw TypeError, s).
Proof.
  intros s id el obj m b Hi Hm Hb Hr.
  unfold playAnimation, bind, gets. rewrite Hi. cbn.
  rewrite (lookup_entry _ _ _ Hm). cbn.
  rewrite Hb. cbn. rewrite Hr. reflexivity.
Qed.

Lemma tap_ignored : forall s tgt,
  tagName tgt <> "IMG" \/ truthy (dataset_id tgt) = false ->
  handleTap tgt s = (Ok tt, s).
Proof.
  intros s tgt H. unfold handleTap.
  destruct H as [H|H].
  - destruct (String.eqb_spec (tagName tgt) "IMG"); [contradiction|reflexivity].
  - rewrite H. rewrite orb_true_r. reflexivity.
Qed.

Lemma tap_guard : forall tgt id,
  tappable tgt id ->
  negb (String.eqb (tagName tgt) "IMG") || negb (truthy (dataset_id tgt)) = false.
Proof.
  intros tgt id (Ht & Hd & Hid). rewrite Ht, Hd. cbn.
  destruct (String.eqb_spec id ""); [contradiction|reflexivity].
Qed.

Lemma tap_when_idle : forall s tgt id,
  tappable tgt id -> Idle s ->
  handleTap tgt s = playAnimation id tgt (logged (LogPlay id) s).
Proof.
  intros s tgt id Ht Hidle. unfold handleTap. rewrite (tap_guard _ _ Ht).
  destruct Ht as (_ & Hd & _). rewrite Hd.
  unfold Idle in Hidle. unfold bind at 1. unfold gets at 1. rewrite Hidle. cbn.
  reflexivity.
Qed.

Lemma tap_same : forall s tgt id el u,
  tappable tgt id -> Playing id el u s ->
  handleTap tgt s = (Ok tt, stopped id el u (logged (LogStop id) s)).
Proof.
  intros s tgt id el u Ht Hp. unfold handleTap. rewrite (tap_guard _ _ Ht).
  destruct Ht as (_ & Hd & Hid). rewrite Hd.
  unfold Playing in Hp. unfold bind at 1. unfold gets at 1. rewrite Hp. cbn.
  rewrite String.eqb_refl. unfold bind, console, call. cbn.
  change (stopActiveAnimation (logged (LogStop id) s)
          = (Ok tt, stopped id el u (logged (LogStop id) s))).
  apply stop_when_playing; assumption.
Qed.

Lemma tap_other : forall s tgt id prev el u,
  tappable tgt id -> Playing prev el u s -> prev <> "" -> prev <> id ->
  handleTap tgt s
  = playAnimation id tgt
      (logged (LogPlay id) (stopped prev el u (logged (LogStopPrevious prev) s))).
Proof.
  intros s tgt id prev el u Ht Hp Hprev Hne. unfold handleTap.
  rewrite (tap_guard _ _ Ht). destruct Ht as (_ & Hd & Hid). rewrite Hd.
  unfold Playing in Hp. unfold bind at 1. unfold gets at 1. rewrite Hp. cbn.
  destruct (String.eqb_spec prev id); [contradiction|].
  destruct (String.eqb_spec prev ""); [contradiction|].
  unfold bind at 1. unfold bind at 1. unfold bind at 1.
  unfold console at 1, call at 1. cbn.
  change (match stopActiveAnimation (logged (LogStopPrevious prev) s) with
          | (Ok a, s') => (console (LogPlay id);; playAnimation id tgt)%eng s'
          | (Throw e, s') => (Throw e, s')
          end = playAnimation id tgt
                  (logged (LogPlay id)
                     (stopped prev el u (logged (LogStopPrevious prev) s)))).
  rewrite (stop_when_playing (logged (LogStopPrevious prev) s) prev el u Hp Hprev).
  reflexivity.
Qed.

(** ** The loop of [initThumbnails] in closed form *)

Lemma thumbnail_loop : forall buf ps l s,
  buffer (engine s) = Some buf -> payloadStart (engine s) = ps ->
  for_of l thumbnail_of s
  = (if forallb has_thumb l then Ok tt else Throw TypeError,
     materialized buf ps l s).
Proof.
  induction l as [|[id m] l IH]; intros s Hb Hp; cbn; [reflexivity|].
  unfold bind at 1. unfold thumbnail_of at 1. unfold bind, gets. rewrite Hb. cbn.
  unfold has_thumb at 1. cbn. destruct (thumb m) as [r|]; cbn; [|reflexivity].
  rewrite Hp. apply IH; cbn; assumption.
Qed.

Lemma initThumbnails_closed : forall s obj buf,
  indexMap (engine s) = Some obj -> buffer (engine s) = Some buf ->
  let s1 := materialized buf (payloadStart (engine s)) obj (logged LogThumbInit s) in
  initThumbnails s
  = if forallb has_thumb obj
    then (Ok tt, logged (LogThumbDone (List.length (thumbUrls (engine s1)))) s1)
    else (Throw TypeError, s1).
Proof.
  intros s obj buf Hi Hb s1. unfold initThumbnails.
  unfold bind at 1. unfold console at 1, call at 1.
  unfold bind at 1. unfold gets at 1. cbn. rewrite Hi.
  unfold bind at 1. cbn. unfold bind at 1.
  change {| engine := engine s; next_url := next_url s;
            trace := Console LogThumbInit :: trace s |}
    with (logged LogThumbInit s).
  rewrite (thumbnail_loop buf (payloadStart (engine s)) obj (logged LogThumbInit s))
    by (cbn; auto).
  fold s1. destruct (forallb has_thumb obj); reflexivity.
Qed.

(** ** [load] in closed form *)

Section LoadClosed.

Variable JSON_parse : list byte -> option (option IndexMap).

Lemma materialized_engine : forall buf ps l s,
  engine (materialized buf ps l s)
  = set_thumbUrls (thumbUrls (engine (materialized buf ps l s))) (engine s).
Proof.
  induction l as [|[id m] l IH]; intros s; cbn.
  - destruct (engine s); reflexivity.
  - destruct (thumb m); [|destruct (engine s); reflexivity].
    rewrite IH. cbn. reflexivity.
Qed.

Lemma load_eq : forall fo s, load JSON_parse fo s = load_closed JSON_parse fo s.
Proof.
  intros fo s. unfold load, load_closed.
  destruct fo as [|[|] status body]; try reflexivity.
  unfold try_catch, bind at 1. cbn [console call].
  unfold bind at 1. cbn [ret]. unfold bind at 1. cbn [modify].
  unfold bind at 1. unfold in_range at 1.
  destruct (getUint32 body 0) as [headerLen|]; [|reflexivity].
  cbn [ret]. unfold bind at 1. unfold in_range at 1.
  destruct (Uint8Array body 4 headerLen) as [text|]; [|reflexivity].
  cbn [ret]. destruct (JSON_parse text) as [[obj|]|]; [|reflexivity|reflexivity].
  unfold bind at 1. cbn [modify]. unfold bind at 1. cbn [modify].
  unfold bind at 1. unfold gets at 1. cbn [engine indexMap set_payloadStart set_indexMap].
  unfold bind at 1. cbn [deref ret].
  unfold bind at 1. cbn [console call]. unfold bind at 1.
  match goal with
  | |- context [initThumbnails ?st] =>
      change st with (logged (LogLoaded (List.length (Object_keys obj)) (List.length body))
                        (indexed obj headerLen (buffered body (logged LogLoading s))))
  end.
  rewrite (initThumbnails_closed
             (logged (LogLoaded (List.length (Object_keys obj)) (List.length body))
                (indexed obj headerLen (buffered body (logged LogLoading s))))
             obj body eq_refl eq_refl).
  cbn [payloadStart engine logged indexed set_payloadStart].
  destruct (forallb has_thumb obj); [|reflexivity].
  unfold gets. cbn [engine logged]. rewrite materialized_engine. reflexivity.
Qed.

End LoadClosed.

(** ** The invariant of a loaded engine *)

Lemma Map_get_In_values : forall m id t,
  Map_get m id = Some t -> In t (Map_values m).
Proof.
  induction m as [|[k v] m IH]; intros id t H; cbn in *; [discriminate|].
  destruct (String.eqb k id); [left; congruence|right; eauto].
Qed.

Lemma Map_set_fresh : forall m id u,
  Map_get m id = None -> Map_set m id u = m ++ [(id, u)].
Proof.
  induction m as [|[k v] m IH]; intros id u H; cbn in *; [reflexivity|].
  destruct (String.eqb k id); [discriminate|]. rewrite IH by assumption. reflexivity.
Qed.

Lemma NoDup_snoc : forall (l : list url) x,
  NoDup l -> ~ In x l -> NoDup (l ++ [x]).
Proof.
  induction l as [|a l IH]; intros x Hnd Hx; cbn.
  - constructor; [intros []|constructor].
  - inversion Hnd; subst. constructor.
    + rewrite in_app_iff. cbn. intros [H|[H|[]]]; [contradiction|].
      subst. apply Hx. left; reflexivity.
    + apply IH; [assumption|]. intro H. apply Hx. right; assumption.
Qed.

(** A thumbnail handle that is alive differs from an animation handle that
    is alive. *)
Lemma thumb_is_not_anim : forall s t u,
  urls_below (next_url s) (trace s) -> cache_ok s ->
  In t (Map_values (thumbUrls (engine s))) ->
  In u (alive AnimationBlob (trace s)) -> t <> u.
Proof.
  intros s t u Hu (Hc & _) Ht Ha ->.
  apply Hc in Ht. eapply alive_kinds_disjoint; eauto.
Qed.

Lemma cached_below : forall s t,
  urls_below (next_url s) (trace s) -> cache_ok s ->
  In t (Map_values (thumbUrls (engine s))) -> (t < next_url s)%nat.
Proof.
  intros s t Hu (Hc & _) Ht. apply Hc in Ht. eapply alive_below; eauto.
Qed.

(** *** One console line *)

Lemma Inv_logged : forall obj buf ps s l,
  Inv obj buf ps s -> Inv obj buf ps (logged l s).
Proof.
  intros obj buf ps s l [Hi Hb Hp Hu Hc Ht Ha Hm].
  constructor; try assumption.
  cbn. split; [exact (at_all_times_now _ _ Hm)|assumption].
Qed.

(** *** Stopping *)

Lemma Inv_stopped : forall obj buf ps s id el u,
  Inv obj buf ps s -> Playing id el u s -> Inv obj buf ps (stopped id el u s).
Proof.
  intros obj buf ps s id el u [Hi Hb Hp Hu Hc Ht Ha Hm] Hplay.
  assert (Hau : alive AnimationBlob (trace s) = [u]).
  { destruct Ha as [[Hidle _]|(id' & el' & u' & m & r & _ & Hp' & Hal & _)].
    - unfold Idle in Hidle. unfold Playing in Hplay. rewrite Hidle in Hplay. discriminate.
    - unfold Playing in *. rewrite Hp' in Hplay. injection Hplay as -> -> ->. assumption. }
  assert (Hin : In u (alive AnimationBlob (trace s))) by (rewrite Hau; left; reflexivity).
  assert (Hlt : (u < next_url s)%nat) by (eapply alive_below; eauto).
  constructor; cbn; try assumption.
  - split; assumption.
  - pose proof Hc as (Hc1 & Hc2 & Hc3). repeat split; cbn; try assumption.
    + intro H. apply filter_In in H. apply Hc1. tauto.
    + intro H. apply filter_other; [apply Hc1; assumption|].
      exact (thumb_is_not_anim s t u Hu Hc H Hin).
    + intros t Hin'. destruct (Nat.eqb_spec u t) as [->|Hne]; [|auto].
      exfalso. exact (thumb_is_not_anim s t t Hu Hc Hin' Hin eq_refl).
  - left. split; [reflexivity|]. cbn. rewrite Hau. apply filter_single.
  - pose proof (at_all_times_now _ _ Hm) as Hnow.
    repeat split; try assumption.
    unfold single_active. cbn. rewrite Hau, filter_single. cbn. lia.
Qed.

Lemma Inv_stop : forall obj buf ps s,
  Inv obj buf ps s -> Inv obj buf ps (snd (stopActiveAnimation s)).
Proof.
  intros obj buf ps s HI.
  destruct (inv_active _ _ _ _ HI) as [[Hidle _]|(id & el & u & m & r & Hid & Hp & _)].
  - rewrite stop_when_idle; [assumption|]. unfold Idle in Hidle. rewrite Hidle. reflexivity.
  - rewrite (stop_when_playing s id el u Hp Hid). cbn. apply Inv_stopped; assumption.
Qed.

(** *** Playing *)

Lemma idle_no_animation : forall obj buf ps s,
  active_ok obj buf ps s -> Idle s -> alive AnimationBlob (trace s) = [].
Proof.
  intros obj buf ps s [[_ H]|(id & el & u & m & r & _ & Hp & _)] Hidle; [assumption|].
  unfold Idle in Hidle. unfold Playing in Hp. rewrite Hidle in Hp. discriminate.
Qed.

Lemma Inv_played : forall obj buf ps s id el m r,
  Inv obj buf ps s -> Idle s -> id <> "" ->
  obj_get obj id = Some m -> anim m = Some r ->
  Inv obj buf ps (played id el (slice_of buf ps r) s).
Proof.
  intros obj buf ps s id el m r [Hi Hb Hp Hu Hc Ht Ha Hm] Hidle Hid Hget Hanim.
  pose proof (idle_no_animation _ _ _ _ Ha Hidle) as Hnone.
  constructor; cbn; try assumption.
  - split; [lia|assumption].
  - intros id' m' Hget'. destruct (Ht id' m' Hget') as (r' & t & Hr' & Hmap & Hblob).
    exists r', t. repeat split; try assumption. cbn.
    assert (t < next_url s)%nat.
    { apply cached_below; [assumption..|]. eapply Map_get_In_values; eauto. }
    destruct (Nat.eqb_spec (next_url s) t); [lia|assumption].
  - right. exists id, el, (next_url s), m, r. cbn.
    rewrite Hnone, Nat.eqb_refl, same_object_refl.
    repeat split; try assumption. apply fresh_not_revoked; assumption.
  - pose proof (at_all_times_now _ _ Hm) as Hnow.
    unfold single_active in *. cbn. rewrite Hnone. cbn. repeat split; try lia.
    assumption.
Qed.

Lemma Inv_play : forall obj buf ps s id el,
  Inv obj buf ps s -> Idle s -> id <> "" ->
  Inv obj buf ps (snd (playAnimation id el s)).
Proof.
  intros obj buf ps s id el HI Hidle Hid.
  pose proof (inv_index _ _ _ _ HI) as Hi.
  pose proof (inv_buffer _ _ _ _ HI) as Hb.
  pose proof (inv_payload _ _ _ _ HI) as Hp.
  destruct (obj_get obj id) as [m|] eqn:Hget.
  - destruct (anim m) as [r|] eqn:Hanim.
    + rewrite (play_known s id el obj m buf r Hi Hget Hb Hanim). cbn.
      rewrite Hp. eapply Inv_played; eauto.
    + rewrite (play_without_anim s id el obj m buf Hi Hget Hb Hanim). assumption.
  - destruct (inherited id) eqn:Hinh.
    + rewrite (play_inherited s id el obj Hi Hget Hinh). assumption.
    + rewrite (play_unknown s id el obj Hi Hget Hinh). cbn. apply Inv_logged; assumption.
Qed.

Lemma Idle_logged : forall l s, Idle s -> Idle (logged l s).
Proof. intros l s H. exact H. Qed.

Lemma Idle_stopped : forall id el u s, Idle (stopped id el u s).
Proof. intros. reflexivity. Qed.

Lemma Playing_logged : forall l id el u s, Playing id el u s -> Playing id el u (logged l s).
Proof. intros l id el u s H. exact H. Qed.

(** The guard of [handleTap] lets a click through exactly when its target
    is tappable. *)
Lemma tap_cases : forall tgt,
  (exists id, tappable tgt id)
  \/ (tagName tgt <> "IMG" \/ truthy (dataset_id tgt) = false).
Proof.
  intros tgt. destruct (String.eqb_spec (tagName tgt) "IMG") as [Ht|Ht]; [|auto].
  destruct (dataset_id tgt) as [id|] eqn:Hd; [|right; right; reflexivity].
  destruct (String.eqb_spec id "") as [->|Hid].
  - right; right; reflexivity.
  - left. exists id. unfold tappable. rewrite Hd. auto.
Qed.

Lemma Inv_tap : forall obj buf ps s tgt,
  Inv obj buf ps s -> Inv obj buf ps (snd (handleTap tgt s)).
Proof.
  intros obj buf ps s tgt HI.
  destruct (tap_cases tgt) as [[id Htap]|Hno].
  2:{ rewrite tap_ignored by assumption. assumption. }
  pose proof Htap as (_ & _ & Hid).
  destruct (inv_active _ _ _ _ HI) as [[Hidle _]|(prev & el & u & m & r & Hprev & Hp & _)].
  - rewrite (tap_when_idle s tgt id Htap Hidle).
    apply Inv_play; [apply Inv_logged; assumption|exact Hidle|assumption].
  - destruct (String.eqb_spec prev id) as [->|Hne].
    + rewrite (tap_same s tgt id el u Htap Hp). cbn.
      apply Inv_stopped; [apply Inv_logged; assumption|exact Hp].
    + rewrite (tap_other s tgt id prev el u Htap Hp Hprev Hne).
      apply Inv_play; [|reflexivity|assumption].
      apply Inv_logged. apply Inv_stopped; [apply Inv_logged; assumption|exact Hp].
Qed.

Lemma Inv_observer : forall obj buf ps entries s,
  Inv obj buf ps s -> Inv obj buf ps (snd (observerCallback entries s)).
Proof.
  intros obj buf ps entries. unfold observerCallback.
  induction entries as [|entry entries IH]; intros s HI; cbn; [assumption|].
  unfold bind at 1. unfold bind at 1. unfold gets at 1.
  set (hit := negb (isIntersecting entry)
              && match imgEl (activeState (engine s)) with
                 | Some el => same_object (target entry) el
                 | None => false
                 end).
  destruct hit.
  - pose proof (Inv_stop _ _ _ _ HI) as HI'.
    destruct (stopActiveAnimation s) as [[[]|e] s'] eqn:E; cbn in HI'.
    + apply IH; assumption.
    + cbn. assumption.
  - cbn. apply IH; assumption.
Qed.

Lemma Inv_getItemData : forall obj buf ps id s,
  Inv obj buf ps s -> Inv obj buf ps (snd (getItemData id s)).
Proof.
  intros obj buf ps id s HI. unfold getItemData, bind, gets, console, call, ret.
  cbn. destruct (indexMap (engine s)) as [o|]; cbn.
  - destruct (obj_lookup o id); cbn; try assumption.
    apply (Inv_logged _ _ _ _ (WarnItemMissing id) HI).
  - apply (Inv_logged _ _ _ _ (WarnItemMissing id) HI).
Qed.

(** *** Materializing the thumbnails *)

Lemma materialized_anim : forall buf ps l s,
  alive AnimationBlob (trace (materialized buf ps l s)) = alive AnimationBlob (trace s).
Proof.
  induction l as [|[id m] l IH]; intros s; cbn; [reflexivity|].
  destruct (thumb m); [|reflexivity]. rewrite IH. reflexivity.
Qed.

Lemma materialized_revocations : forall buf ps l s u,
  revocations (trace (materialized buf ps l s)) u = revocations (trace s) u.
Proof.
  induction l as [|[id m] l IH]; intros s u; cbn; [reflexivity|].
  destruct (thumb m); [|reflexivity]. rewrite IH. reflexivity.
Qed.

Lemma materialized_console : forall buf ps l s,
  console_of (trace (materialized buf ps l s)) = console_of (trace s).
Proof.
  induction l as [|[id m] l IH]; intros s; cbn; [reflexivity|].
  destruct (thumb m); [|reflexivity]. rewrite IH. reflexivity.
Qed.

Lemma materialized_times : forall buf ps l s,
  at_all_times single_active (trace s) ->
  at_all_times single_active (trace (materialized buf ps l s)).
Proof.
  induction l as [|[id m] l IH]; intros s H; cbn; [assumption|].
  destruct (thumb m); [|assumption]. apply IH. cbn.
  split; [exact (at_all_times_now _ _ H)|assumption].
Qed.

Lemma materialized_urls : forall buf ps l s,
  urls_below (next_url s) (trace s) ->
  urls_below (next_url (materialized buf ps l s)) (trace (materialized buf ps l s)).
Proof.
  induction l as [|[id m] l IH]; intros s H; cbn; [assumption|].
  destruct (thumb m); [|assumption]. apply IH. cbn. split; [lia|assumption].
Qed.

Lemma materialized_next : forall buf ps l s,
  (next_url s <= next_url (materialized buf ps l s))%nat.
Proof.
  induction l as [|[id m] l IH]; intros s; cbn; [lia|].
  destruct (thumb m); [|lia]. specialize (IH (thumbed id (slice_of buf ps r) s)).
  cbn in IH. lia.
Qed.

(** The loop leaves the cache entries of the ids it does not visit. *)
Lemma materialized_other : forall buf ps l s id,
  ~ In id (Object_keys l) ->
  Map_get (thumbUrls (engine (materialized buf ps l s))) id
  = Map_get (thumbUrls (engine s)) id.
Proof.
  induction l as [|[k m] l IH]; intros s id Hn; cbn in *; [reflexivity|].
  destruct (thumb m); [|reflexivity].
  rewrite IH by tauto. cbn. apply Map_get_set_other. tauto.
Qed.

(** The loop leaves the handles that exist when it starts. *)
Lemma materialized_blob : forall buf ps l s t b,
  urls_below (next_url s) (trace s) ->
  blob_of (trace s) t = Some b ->
  blob_of (trace (materialized buf ps l s)) t = Some b.
Proof.
  induction l as [|[k m] l IH]; intros s t b Hu Hb; cbn; [assumption|].
  destruct (thumb m); [|assumption].
  apply IH; cbn; [split; [lia|assumption]|].
  pose proof (blob_below _ _ _ _ Hu Hb).
  destruct (Nat.eqb_spec (next_url s) t); [lia|assumption].
Qed.

Lemma cache_thumbed : forall s id bytes,
  urls_below (next_url s) (trace s) -> cache_ok s ->
  Map_get (thumbUrls (engine s)) id = None ->
  cache_ok (thumbed id bytes s).
Proof.
  intros s id bytes Hu Hc Hnone. pose proof Hc as (Hc1 & Hc2 & Hc3).
  unfold cache_ok, Map_values. cbn.
  rewrite (Map_set_fresh _ _ _ Hnone), map_app. cbn.
  assert (Hfresh : ~ In (next_url s) (map snd (thumbUrls (engine s)))).
  { intro H. pose proof (cached_below s _ Hu Hc H). lia. }
  repeat split.
  - intros [<-|H]; apply in_app_iff; [right; left; reflexivity|].
    left. apply Hc1. assumption.
  - intro H. apply in_app_iff in H. destruct H as [H|[<-|[]]]; [|left; reflexivity].
    right. apply Hc1. assumption.
  - apply NoDup_snoc; assumption.
  - intros t H. apply in_app_iff in H. destruct H as [H|[<-|[]]].
    + apply Hc3. assumption.
    + apply fresh_not_revoked. assumption.
Qed.

Lemma materialized_cache : forall buf ps l s,
  urls_below (next_url s) (trace s) -> cache_ok s ->
  NoDup (Object_keys l) ->
  (forall id, In id (Object_keys l) -> Map_get (thumbUrls (engine s)) id = None) ->
  cache_ok (materialized buf ps l s).
Proof.
  induction l as [|[k m] l IH]; intros s Hu Hc Hnd Hnone; cbn in *; [assumption|].
  destruct (thumb m); [|assumption]. inversion Hnd; subst.
  apply IH; cbn.
  - split; [lia|assumption].
  - apply cache_thumbed; auto.
  - assumption.
  - intros id Hin. rewrite Map_get_set_other; [auto|].
    intros ->. contradiction.
Qed.

Lemma materialized_thumbs : forall buf ps l s,
  urls_below (next_url s) (trace s) -> NoDup (Object_keys l) ->
  forallb has_thumb l = true ->
  forall id m, obj_get l id = Some m ->
    exists r t, thumb m = Some r
      /\ Map_get (thumbUrls (engine (materialized buf ps l s))) id = Some t
      /\ blob_of (trace (materialized buf ps l s)) t = Some (slice_of buf ps r).
Proof.
  induction l as [|[k m0] l IH]; intros s Hu Hnd Hall id m Hget; cbn in *; [discriminate|].
  apply andb_prop in Hall. destruct Hall as [Hk Hall].
  unfold has_thumb in Hk. cbn in Hk. inversion Hnd; subst.
  destruct (thumb m0) as [r0|] eqn:Hr0; [|discriminate].
  assert (Hu1 : urls_below (next_url (thumbed k (slice_of buf ps r0) s))
                  (trace (thumbed k (slice_of buf ps r0) s)))
    by (cbn; split; [lia|assumption]).
  destruct (String.eqb_spec k id) as [->|Hne].
  - injection Hget as <-. exists r0, (next_url s). split; [assumption|]. split.
    + rewrite materialized_other by assumption. cbn. apply Map_get_set_same.
    + apply materialized_blob; [assumption|]. cbn. rewrite Nat.eqb_refl. reflexivity.
  - apply IH; assumption.
Qed.

(** *** Loading *)

Section Loaded.

Variable JSON_parse : list byte -> option (option IndexMap).

(** An object has each of its keys once. *)
Hypothesis JSON_parse_keys :
  forall text obj, JSON_parse text = Some (Some obj) -> NoDup (Object_keys obj).

(** A [load] that succeeds read a header, an index text that parses, and
    entries that all have a [thumb]. *)
Lemma load_success : forall fo s r s',
  load JSON_parse fo s = (Ok r, s') ->
  exists status body headerLen text obj,
    fo = FetchResponse true status body
    /\ getUint32 body 0 = Some headerLen
    /\ Uint8Array body 4 headerLen = Some text
    /\ JSON_parse text = Some (Some obj)
    /\ forallb has_thumb obj = true
    /\ r = Some obj
    /\ s' = after_load body obj headerLen s.
Proof.
  intros fo s r s' H. rewrite load_eq in H. unfold load_closed in H.
  destruct fo as [|[|] status body]; try discriminate.
  destruct (getUint32 body 0) as [headerLen|] eqn:Hh; [|discriminate].
  destruct (Uint8Array body 4 headerLen) as [text|] eqn:Hv; [|discriminate].
  destruct (JSON_parse text) as [[obj|]|] eqn:Hj; [|discriminate|discriminate].
  destruct (forallb has_thumb obj) eqn:Hall; [|discriminate].
  injection H as <- <-.
  exists status, body, headerLen, text, obj. repeat split; assumption.
Qed.

Lemma Inv_after_load : forall body obj headerLen,
  NoDup (Object_keys obj) -> forallb has_thumb obj = true ->
  Inv obj body (4 + headerLen) (after_load body obj headerLen new_GalleryEngine).
Proof.
  intros body obj headerLen Hnd Hall. unfold after_load. apply Inv_logged.
  set (s2 := before_thumbnails body obj headerLen new_GalleryEngine).
  assert (Hu : urls_below (next_url s2) (trace s2)) by (cbn; exact I).
  constructor.
  - rewrite materialized_engine. reflexivity.
  - rewrite materialized_engine. reflexivity.
  - rewrite materialized_engine. reflexivity.
  - apply materialized_urls. assumption.
  - apply materialized_cache; try assumption.
    + cbn. repeat split; try tauto. constructor.
    + intros id _. reflexivity.
  - intros id m Hget. apply materialized_thumbs; assumption.
  - left. split.
    + unfold Idle. rewrite materialized_engine. reflexivity.
    + rewrite materialized_anim. reflexivity.
  - apply materialized_times. unfold single_active. cbn. repeat split; lia.
Qed.

Lemma Inv_exec : forall obj buf ps ev s,
  playback_event ev = true ->
  Inv obj buf ps s -> Inv obj buf ps (exec JSON_parse ev s).
Proof.
  intros obj buf ps ev s Hev HI. destruct ev; try discriminate; cbn.
  - apply Inv_tap; assumption.
  - apply Inv_observer; assumption.
  - apply Inv_stop; assumption.
  - apply Inv_getItemData; assumption.
  - assumption.
Qed.


Lemma loaded_run : forall evs s,
  forallb playback_event evs = true ->
  loaded_engine JSON_parse s -> loaded_engine JSON_parse (run JSON_parse evs s).
Proof.
  unfold run. induction evs as [|ev evs IH]; intros s Hall Hs; cbn in *; [assumption|].
  apply andb_prop in Hall. destruct Hall as [Hev Hall].
  apply IH; [assumption|]. apply loaded_then; assumption.
Qed.

(** Every loaded engine satisfies the invariant, for the index and the
    buffer it was loaded with. *)
Lemma loaded_Inv : forall s,
  loaded_engine JSON_parse s ->
  exists obj buf headerLen,
    NoDup (Object_keys obj)
    /\ getUint32 buf 0 = Some headerLen
    /\ Inv obj buf (4 + headerLen) s.
Proof.
  intros s H. induction H as [fo r s Hload|ev s Hs IH Hev].
  - destruct (load_success _ _ _ _ Hload)
      as (status & body & headerLen & text & obj & _ & Hh & _ & Hj & Hall & _ & ->).
    exists obj, body, headerLen. split; [eauto|]. split; [assumption|].
    apply Inv_after_load; eauto.
  - destruct IH as (obj & buf & headerLen & Hnd & Hh & HI).
    exists obj, buf, headerLen. split; [assumption|]. split; [assumption|].
    apply Inv_exec; assumption.
Qed.

(** Taps are playback events. *)
Lemma taps_are_playback : forall taps, forallb playback_event (map Tap taps) = true.
Proof. induction taps as [|t taps IH]; cbn; auto. Qed.

(** C1. For every sequence of tap events delivered to a loaded engine, at
    most one animation handle is alive at every moment of the run (so each
    handle is created only after the previous one was revoked), and when the
    taps are done the handles alive are exactly the one held in
    [activeState.animUrl], if any. *)
Theorem single_active_animation : forall s taps,
  loaded_engine JSON_parse s ->
  let s' := run JSON_parse (map Tap taps) s in
  at_all_times single_active (trace s')
  /\ alive AnimationBlob (trace s')
     = match animUrl (activeState (engine s')) with
       | Some u => [u]
       | None => []
       end.
Proof.
  intros s taps Hs s'.
  assert (Hs' : loaded_engine JSON_parse s')
    by (apply loaded_run; [apply taps_are_playback|assumption]).
  destruct (loaded_Inv _ Hs') as (obj & buf & headerLen & _ & _ & HI).
  split; [exact (inv_times _ _ _ _ HI)|].
  destruct (inv_active _ _ _ _ HI) as [[Hidle Hal]|(id & el & u & m & r & _ & Hp & Hal & _)].
  - unfold Idle in Hidle. rewrite Hidle, Hal. reflexivity.
  - unfold Playing in Hp. rewrite Hp, Hal. reflexivity.
Qed.

(** What the invariant says of an engine that is playing. *)
Lemma playing_facts : forall obj buf ps s id el u,
  Inv obj buf ps s -> Playing id el u s ->
  id <> ""
  /\ alive AnimationBlob (trace s) = [u]
  /\ (u < next_url s)%nat
  /\ revocations (trace s) u = O
  /\ exists m r t,
       obj_get obj id = Some m /\ thumb m = Some r
       /\ Map_get (thumbUrls (engine s)) id = Some t
       /\ blob_of (trace s) t = Some (slice_of buf ps r)
       /\ In t (alive ThumbnailBlob (trace s))
       /\ t <> u.
Proof.
  intros obj buf ps s id el u HI Hplay.
  destruct (inv_active _ _ _ _ HI)
    as [[Hidle _]|(id' & el' & u' & m & r & Hid & Hp & Hal & Hget & _ & _ & _ & _ & Hrev)].
  - unfold Idle in Hidle. unfold Playing in Hplay. rewrite Hidle in Hplay. discriminate.
  - unfold Playing in *. rewrite Hp in Hplay. injection Hplay as -> -> ->.
    assert (Hin : In u (alive AnimationBlob (trace s))) by (rewrite Hal; left; reflexivity).
    repeat split; try assumption.
    + eapply alive_below; [exact (inv_urls _ _ _ _ HI)|exact Hin].
    + destruct (inv_thumbs _ _ _ _ HI id m Hget) as (rt & t & Hrt & Hmap & Hblob).
      pose proof (Map_get_In_values _ _ _ Hmap) as Hval.
      exists m, rt, t. repeat split; try assumption.
      * apply (proj1 (inv_cache _ _ _ _ HI)). assumption.
      * exact (thumb_is_not_anim s t u (inv_urls _ _ _ _ HI) (inv_cache _ _ _ _ HI) Hval Hin).
Qed.

(** C7 (as the code has it). In a loaded engine playing A, a tap on an
    element carrying another known id B whose entry has an [anim] range
    stops A first (its observation is unregistered, its element gets A's
    thumbnail handle back, its animation handle is revoked) and only then
    creates B's handle; afterwards the engine is Playing B and B's handle is
    the only animation handle alive. *)
Theorem switch_releases_then_plays : forall s A elA uA tgt B obj m r,
  loaded_engine JSON_parse s ->
  Playing A elA uA s ->
  tappable tgt B -> A <> B ->
  indexMap (engine s) = Some obj -> obj_get obj B = Some m -> anim m = Some r ->
  exists uB tA buf,
    buffer (engine s) = Some buf
    /\ Map_get (thumbUrls (engine s)) A = Some tA
    /\ handleTap tgt s
       = (Ok tt,
          played B tgt (slice_of buf (payloadStart (engine s)) r)
            (logged (LogPlay B) (stopped A elA uA (logged (LogStopPrevious A) s))))
    /\ Playing B tgt uB (exec JSON_parse (Tap tgt) s)
    /\ trace (exec JSON_parse (Tap tgt) s)
       = Observe tgt :: SetSrc tgt (Some uB)
         :: CreateObjectURL AnimationBlob uB (slice_of buf (payloadStart (engine s)) r)
         :: Console (LogPlay B)
         :: RevokeObjectURL uA :: SetSrc elA (Some tA) :: Unobserve elA
         :: Console (LogStopPrevious A) :: trace s
    /\ alive AnimationBlob (trace (exec JSON_parse (Tap tgt) s)) = [uB]
    /\ uB <> uA
    /\ revocations (trace (exec JSON_parse (Tap tgt) s)) uA = 1%nat
    /\ In tA (alive ThumbnailBlob (trace (exec JSON_parse (Tap tgt) s))).
Proof.
  intros s A elA uA tgt B obj m r Hs Hplay Htap Hne Hi Hget Hanim.
  destruct (loaded_Inv _ Hs) as (obj' & buf & headerLen & _ & _ & HI).
  pose proof (inv_index _ _ _ _ HI) as Hi'. rewrite Hi in Hi'. injection Hi' as <-.
  pose proof (inv_buffer _ _ _ _ HI) as Hb.
  destruct (playing_facts _ _ _ _ _ _ _ HI Hplay)
    as (HA & Hal & Hlt & Hrev & mA & rA & tA & _ & _ & Hmap & _ & Hlive & HtA).
  exists (next_url s), tA, buf.
  assert (Heq : handleTap tgt s
       = (Ok tt,
          played B tgt (slice_of buf (payloadStart (engine s)) r)
            (logged (LogPlay B) (stopped A elA uA (logged (LogStopPrevious A) s))))).
  { rewrite (tap_other s tgt B A elA uA Htap Hplay HA Hne).
    rewrite (play_known
               (logged (LogPlay B) (stopped A elA uA (logged (LogStopPrevious A) s)))
               B tgt obj m buf r); auto. }
  cbn [exec]. rewrite Heq. cbn [snd].
  split; [assumption|]. split; [assumption|]. split; [reflexivity|].
  split; [reflexivity|]. split; [cbn; rewrite Hmap; reflexivity|].
  split; [cbn; rewrite Hal, filter_single; reflexivity|].
  split; [lia|]. split.
  - cbn. rewrite Nat.eqb_refl, Hrev. reflexivity.
  - cbn. apply filter_other; assumption.
Qed.

(** C8 (as the code has it). In a loaded engine that is Idle, tapping the
    element of a known id X whose entry has an [anim] range twice in a row
    plays X and then returns the engine to Idle, with every field of the
    instance as before; the element shows X's thumbnail handle again, which
    is still alive, and the animation handle the first tap created was
    revoked, once. *)
Theorem toggle_returns_to_idle : forall s tgt X obj m r,
  loaded_engine JSON_parse s ->
  Idle s ->
  tappable tgt X ->
  indexMap (engine s) = Some obj -> obj_get obj X = Some m -> anim m = Some r ->
  let s1 := exec JSON_parse (Tap tgt) s in
  let s2 := exec JSON_parse (Tap tgt) s1 in
  exists u t rt buf,
    Playing X tgt u s1
    /\ Idle s2
    /\ engine s2 = engine s
    /\ thumb m = Some rt
    /\ buffer (engine s) = Some buf
    /\ Map_get (thumbUrls (engine s)) X = Some t
    /\ blob_of (trace s2) t = Some (slice_of buf (payloadStart (engine s)) rt)
    /\ In t (alive ThumbnailBlob (trace s2))
    /\ displayed (trace s2) tgt = Some (Some t)
    /\ observing (trace s2) tgt = false
    /\ alive AnimationBlob (trace s2) = []
    /\ revocations (trace s2) u = 1%nat.
Proof.
  intros s tgt X obj m r Hs Hidle Htap Hi Hget Hanim s1 s2.
  destruct (loaded_Inv _ Hs) as (obj' & buf & headerLen & _ & _ & HI).
  pose proof (inv_index _ _ _ _ HI) as Hi'. rewrite Hi in Hi'. injection Hi' as <-.
  pose proof (inv_buffer _ _ _ _ HI) as Hb.
  pose proof (inv_payload _ _ _ _ HI) as Hps.
  assert (E1 : s1 = played X tgt (slice_of buf (payloadStart (engine s)) r)
                      (logged (LogPlay X) s)).
  { unfold s1. cbn [exec]. rewrite (tap_when_idle s tgt X Htap Hidle).
    rewrite (play_known (logged (LogPlay X) s) X tgt obj m buf r); auto. }
  assert (HI1 : Inv obj buf (4 + headerLen) s1)
    by (apply Inv_exec; [reflexivity|assumption]).
  assert (Hp1 : Playing X tgt (next_url s) s1) by (rewrite E1; reflexivity).
  assert (E2 : s2 = stopped X tgt (next_url s) (logged (LogStop X) s1)).
  { unfold s2. cbn [exec]. rewrite (tap_same s1 tgt X tgt (next_url s) Htap Hp1).
    reflexivity. }
  clearbody s2. clearbody s1.
  destruct (playing_facts _ _ _ _ _ _ _ HI1 Hp1)
    as (HX & Hal & Hlt & Hrev & m' & rt & t & Hget' & Hthumb & Hmap & Hblob & Hlive & Htu).
  rewrite Hget in Hget'. injection Hget' as <-.
  assert (Hmap0 : Map_get (thumbUrls (engine s)) X = Some t)
    by (rewrite E1 in Hmap; exact Hmap).
  exists (next_url s), t, rt, buf. rewrite Hps. subst s2. cbn.
  rewrite same_object_refl, Nat.eqb_refl, Hal, Hrev, filter_single.
  repeat split; try assumption.
  - rewrite E1. cbn. unfold Idle in Hidle. rewrite <- Hidle.
    destruct (engine s); reflexivity.
  - apply filter_other; assumption.
  - rewrite Hmap. reflexivity.
Qed.

Lemma slice_of_byte_range : forall buf ps r,
  0 <= ps -> 0 <= offset r -> 0 <= length r ->
  slice_of buf ps r = byte_range buf (ps + offset r) (length r).
Proof.
  intros buf ps r Hps Ho Hl. unfold slice_of.
  apply slice_is_byte_range; lia.
Qed.



End Loaded.

(** ** Failures of [load] *)

Lemma short_view_is_out_of_range : forall body headerLen,
  byteLength body < 4 + headerLen -> Uint8Array body 4 headerLen = None.
Proof.
  intros body headerLen H. unfold Uint8Array.
  destruct (Z.leb_spec (4 + headerLen) (byteLength body)); [lia|reflexivity].
Qed.

(** C6. A blob shorter than the length its header declares (4 plus the
    uint32 at offset 0) makes [load] fail with a RangeError, a format error:
    the index map and the payload base are left as they were (unset, on an
    engine that had none), and so are the thumbnail cache and the playback
    state; only the buffer reference is replaced. *)
Theorem short_blob_is_format_error : forall JSON_parse s status body headerLen,
  getUint32 body 0 = Some headerLen ->
  byteLength body < 4 + headerLen ->
  exists s',
    load JSON_parse (FetchResponse true status body) s = (Throw RangeError, s')
    /\ FormatError RangeError
    /\ indexMap (engine s') = indexMap (engine s)
    /\ payloadStart (engine s') = payloadStart (engine s)
    /\ thumbUrls (engine s') = thumbUrls (engine s)
    /\ activeState (engine s') = activeState (engine s)
    /\ buffer (engine s') = Some body
    /\ trace s' = Console (ErrLoadFailed RangeError) :: Console LogLoading :: trace s.
Proof.
  intros JSON_parse s status body headerLen Hh Hshort.
  rewrite load_eq. unfold load_closed. rewrite Hh.
  rewrite (short_view_is_out_of_range _ _ Hshort).
  eexists. split; [reflexivity|]. split; [left; reflexivity|].
  cbn. repeat split; reflexivity.
Qed.

(** A blob too short to hold the header fails the same way. *)
Lemma headerless_blob_is_format_error : forall JSON_parse s status body,
  getUint32 body 0 = None ->
  fst (load JSON_parse (FetchResponse true status body) s) = Throw RangeError
  /\ indexMap (engine (snd (load JSON_parse (FetchResponse true status body) s)))
     = indexMap (engine s).
Proof.
  intros JSON_parse s status body Hh. rewrite load_eq. unfold load_closed.
  rewrite Hh. split; reflexivity.
Qed.

(** A [load] that fails with anything but a TypeError failed before the
    index was stored. *)
Lemma early_failure_keeps_index : forall JSON_parse fo s e s',
  load JSON_parse fo s = (Throw e, s') -> e <> TypeError ->
  indexMap (engine s') = indexMap (engine s)
  /\ payloadStart (engine s') = payloadStart (engine s).
Proof.
  intros JSON_parse fo s e s' H He. rewrite load_eq in H. unfold load_closed in H.
  destruct fo as [|[|] status body].
  - injection H as <- <-. split; reflexivity.
  - destruct (getUint32 body 0) as [headerLen|];
      [|injection H as <- <-; split; reflexivity].
    destruct (Uint8Array body 4 headerLen) as [text|];
      [|injection H as <- <-; split; reflexivity].
    destruct (JSON_parse text) as [[obj|]|];
      [|injection H as <- <-; contradiction|injection H as <- <-; split; reflexivity].
    destruct (forallb has_thumb obj); [discriminate|].
    injection H as <- <-. contradiction.
  - injection H as <- <-. split; reflexivity.
Qed.

(** ** Queries *)

(** C10 (as the code has it). On an engine whose index map is unset, as it
    is on a new engine, after a load that failed before the index was
    stored, and after [dispose], [getAllIds()] returns the empty sequence
    and [getItemData(id)] logs a warning and returns null, for every id;
    neither throws and neither changes the instance. *)
Theorem queries_without_index : forall s id,
  indexMap (engine s) = None ->
  getAllIds s = (Ok [], s)
  /\ getItemData id s = (Ok None, logged (WarnItemMissing id) s).
Proof.
  intros s id H. unfold getAllIds, getItemData, bind, gets.
  rewrite H. split; reflexivity.
Qed.

Lemma new_engine_has_no_index : indexMap (engine new_GalleryEngine) = None.
Proof. reflexivity. Qed.

(** ** The unknown id *)

(** C2 (as the code has it). A tap on an element whose id X is no key of
    the index map creates no handle, and what else it does depends on X
    and on what is playing.  When X is not the id that is playing and names
    no member of [Object.prototype], [playAnimation] logs its warning: from
    Idle nothing else happens and the instance is unchanged; from Playing A
    the handler has already stopped A, whose handle is revoked, and the
    engine is left Idle.  When X names a member of [Object.prototype]
    ([constructor], [toString], ...) the lookup finds that member, no
    warning is logged and [playAnimation] throws a TypeError, after A was
    stopped.  When X is the id that is playing (its entry is gone after a
    reload) the tap stops it, with no warning. *)
Theorem unknown_id_tap : forall s tgt X obj,
  indexMap (engine s) = Some obj -> ~ In X (Object_keys obj) ->
  tappable tgt X ->
  (inherited X = false ->
     (Idle s ->
        exists s', handleTap tgt s = (Ok tt, s')
          /\ engine s' = engine s
          /\ next_url s' = next_url s
          /\ trace s' = Console (WarnAnimMissing X) :: Console (LogPlay X) :: trace s)
     /\ (forall A el u, Playing A el u s -> A <> "" -> A <> X ->
        exists s', handleTap tgt s = (Ok tt, s')
          /\ Idle s'
          /\ next_url s' = next_url s
          /\ trace s' = Console (WarnAnimMissing X) :: Console (LogPlay X)
                        :: RevokeObjectURL u
                        :: SetSrc el (Map_get (thumbUrls (engine s)) A)
                        :: Unobserve el
                        :: Console (LogStopPrevious A) :: trace s))
  /\ (inherited X = true ->
     (Idle s ->
        exists s', handleTap tgt s = (Throw TypeError, s')
          /\ engine s' = engine s
          /\ next_url s' = next_url s
          /\ trace s' = Console (LogPlay X) :: trace s)
     /\ (forall A el u, Playing A el u s -> A <> "" -> A <> X ->
        exists s', handleTap tgt s = (Throw TypeError, s')
          /\ Idle s'
          /\ next_url s' = next_url s
          /\ trace s' = Console (LogPlay X)
                        :: RevokeObjectURL u
                        :: SetSrc el (Map_get (thumbUrls (engine s)) A)
                        :: Unobserve el
                        :: Console (LogStopPrevious A) :: trace s))
  /\ (forall el u, Playing X el u s ->
        exists s', handleTap tgt s = (Ok tt, s')
          /\ Idle s'
          /\ next_url s' = next_url s
          /\ trace s' = RevokeObjectURL u
                        :: SetSrc el (Map_get (thumbUrls (engine s)) X)
                        :: Unobserve el
                        :: Console (LogStop X) :: trace s).
Proof.
  intros s tgt X obj Hi Hkey Htap.
  pose proof (obj_get_not_In obj X Hkey) as Hget.
  split; [|split].
  - intros Hinh. split.
    + intros Hidle. rewrite (tap_when_idle s tgt X Htap Hidle).
      rewrite (play_unknown (logged (LogPlay X) s) X tgt obj Hi Hget Hinh).
      eexists. split; [reflexivity|]. repeat split; reflexivity.
    + intros A el u Hp HA Hne.
      rewrite (tap_other s tgt X A el u Htap Hp HA Hne).
      rewrite (play_unknown
                 (logged (LogPlay X) (stopped A el u (logged (LogStopPrevious A) s)))
                 X tgt obj Hi Hget Hinh).
      eexists. split; [reflexivity|]. repeat split; reflexivity.
  - intros Hinh. split.
    + intros Hidle. rewrite (tap_when_idle s tgt X Htap Hidle).
      rewrite (play_inherited (logged (LogPlay X) s) X tgt obj Hi Hget Hinh).
      eexists. split; [reflexivity|]. repeat split; reflexivity.
    + intros A el u Hp HA Hne.
      rewrite (tap_other s tgt X A el u Htap Hp HA Hne).
      rewrite (play_inherited
                 (logged (LogPlay X) (stopped A el u (logged (LogStopPrevious A) s)))
                 X tgt obj Hi Hget Hinh).
      eexists. split; [reflexivity|]. repeat split; reflexivity.
  - intros el u Hp. rewrite (tap_same s tgt X el u Htap Hp).
    eexists. split; [reflexivity|]. repeat split; reflexivity.
Qed.

(** ** The visibility reclaimer *)

Lemma observer_when_idle : forall entries s,
  imgEl (activeState (engine s)) = None ->
  observerCallback entries s = (Ok tt, s).
Proof.
  unfold observerCallback.
  induction entries as [|entry entries IH]; intros s H; cbn; [reflexivity|].
  unfold bind at 1. unfold bind at 1. unfold gets at 1. rewrite H.
  rewrite andb_false_r. cbn. apply IH. assumption.
Qed.

(** C3 (as the code has it). While A is playing on an element, the observer
    callback stops the playback when one of its entries reports the element
    as not intersecting at all ([isIntersecting] false; the observer has
    threshold 0): the handle is revoked, the element gets its thumbnail back
    and is no longer observed.  Entries that still intersect, whatever their
    ratio, and entries of other elements change nothing. *)
Theorem reclaim_when_not_intersecting : forall s A el u entries,
  Playing A el u s -> A <> "" ->
  observerCallback entries s
  = (Ok tt, if existsb (reclaims el) entries then stopped A el u s else s).
Proof.
  intros s A el u entries Hp HA. unfold observerCallback.
  induction entries as [|entry entries IH]; cbn; [reflexivity|].
  unfold bind at 1. unfold bind at 1. unfold gets at 1.
  pose proof Hp as Hp'. unfold Playing in Hp'. rewrite Hp'. cbn [imgEl].
  fold (reclaims el entry). destruct (reclaims el entry); cbn [orb].
  - rewrite (stop_when_playing s A el u Hp HA).
    apply (observer_when_idle entries (stopped A el u s)). reflexivity.
  - cbn. exact IH.
Qed.

(** ** Malformed index entries *)

Lemma materialized_stops : forall buf ps pre id m post s,
  forallb has_thumb pre = true -> thumb m = None ->
  materialized buf ps (pre ++ (id, m) :: post) s = materialized buf ps pre s.
Proof.
  induction pre as [|[k m0] pre IH]; intros id m post s Hall Hm; cbn in *.
  - rewrite Hm. reflexivity.
  - apply andb_prop in Hall. destruct Hall as [Hk Hall].
    unfold has_thumb in Hk. cbn in Hk.
    destruct (thumb m0); [|discriminate]. apply IH; assumption.
Qed.

Lemma missing_thumb_found : forall pre id m post,
  thumb m = None -> forallb has_thumb (pre ++ (id, m) :: post) = false.
Proof.
  intros pre id m post Hm. rewrite forallb_app. cbn.
  unfold has_thumb at 2. cbn. rewrite Hm. apply andb_false_r.
Qed.

Lemma materialized_count : forall buf ps l s,
  forallb has_thumb l = true ->
  next_url (materialized buf ps l s) = (next_url s + List.length l)%nat.
Proof.
  induction l as [|[k m] l IH]; intros s Hall; cbn in *; [lia|].
  apply andb_prop in Hall. destruct Hall as [Hk Hall].
  unfold has_thumb in Hk. cbn in Hk. destruct (thumb m); [|discriminate].
  rewrite IH by assumption. cbn. lia.
Qed.

Lemma materialized_keeps_covered : forall buf ps l s id,
  covered s id -> covered (materialized buf ps l s) id.
Proof.
  induction l as [|[k m] l IH]; intros s id H; cbn; [assumption|].
  destruct (thumb m); [|assumption]. apply IH.
  destruct H as (t & Hmap & Hlive). unfold covered. cbn.
  destruct (String.eqb_spec k id) as [->|Hne].
  - exists (next_url s). rewrite Map_get_set_same. split; [reflexivity|left; reflexivity].
  - exists t. rewrite Map_get_set_other by assumption. split; [assumption|right; assumption].
Qed.

Lemma materialized_covers : forall buf ps l s id,
  forallb has_thumb l = true -> In id (Object_keys l) ->
  covered (materialized buf ps l s) id.
Proof.
  induction l as [|[k m] l IH]; intros s id Hall Hin; cbn in *; [contradiction|].
  apply andb_prop in Hall. destruct Hall as [Hk Hall].
  unfold has_thumb in Hk. cbn in Hk. destruct (thumb m); [|discriminate].
  destruct (in_dec string_dec id (Object_keys l)) as [Hrest|Hrest].
  - apply IH; assumption.
  - destruct Hin as [->|Hin]; [|contradiction].
    apply materialized_keeps_covered. unfold covered. cbn.
    exists (next_url s). rewrite Map_get_set_same. split; [reflexivity|left; reflexivity].
Qed.

(** C4 (as the code has it). [initThumbnails] handles the entries in index
    order and has no check for a missing [thumb]: when every entry has one,
    every entry receives a live thumbnail handle and the method returns;
    at the first entry without one it throws a TypeError.  No warning is
    logged, the entries before that entry have received their handles, and
    the cache entries of all other ids, those after it included, are as
    they were. *)
Theorem initThumbnails_stops_at_missing_thumb : forall s obj buf,
  indexMap (engine s) = Some obj -> buffer (engine s) = Some buf ->
  (forallb has_thumb obj = true ->
     exists s', initThumbnails s = (Ok tt, s')
       /\ forall id, In id (Object_keys obj) -> covered s' id)
  /\ (forall pre id m post,
        obj = pre ++ (id, m) :: post ->
        forallb has_thumb pre = true -> thumb m = None ->
        exists s', initThumbnails s = (Throw TypeError, s')
          /\ console_of (trace s') = LogThumbInit :: console_of (trace s)
          /\ next_url s' = (next_url s + List.length pre)%nat
          /\ (forall k, In k (Object_keys pre) -> covered s' k)
          /\ (forall k, ~ In k (Object_keys pre) ->
                Map_get (thumbUrls (engine s')) k = Map_get (thumbUrls (engine s)) k)).
Proof.
  intros s obj buf Hi Hb.
  pose proof (initThumbnails_closed s obj buf Hi Hb) as Hclosed. cbn zeta in Hclosed.
  split.
  - intros Hall. rewrite Hall in Hclosed. eexists. split; [exact Hclosed|].
    intros id Hin. unfold covered. cbn.
    apply (materialized_covers buf _ obj (logged LogThumbInit s) id Hall Hin).
  - intros pre id m post -> Hpre Hm.
    rewrite (missing_thumb_found pre id m post Hm) in Hclosed.
    rewrite (materialized_stops _ _ pre id m post _ Hpre Hm) in Hclosed.
    eexists. split; [exact Hclosed|].
    split; [apply materialized_console|].
    split; [apply (materialized_count _ _ pre (logged LogThumbInit s) Hpre)|].
    split.
    + intros k Hin. apply materialized_covers; assumption.
    + intros k Hin.
      apply (materialized_other _ _ pre (logged LogThumbInit s) k Hin).
Qed.

(** ** Disposal *)

Lemma revoke_loop : forall us s,
  for_of us (fun u => revokeObjectURL (Some u)) s
  = (Ok tt, {| engine := engine s; next_url := next_url s;
               trace := revoke_each us (trace s) |}).
Proof.
  induction us as [|u us IH]; intros s; cbn.
  - destruct s; reflexivity.
  - exact (IH {| engine := engine s; next_url := next_url s;
                 trace := RevokeObjectURL u :: trace s |}).
Qed.

Lemma dispose_closed : forall s s1,
  stopActiveAnimation (logged LogDisposing s) = (Ok tt, s1) ->
  dispose s = (Ok tt, disposed s1).
Proof.
  intros s s1 Hstop. unfold dispose.
  unfold bind at 1. cbn [console call].
  change {| engine := engine s; next_url := next_url s;
            trace := Console LogDisposing :: trace s |}
    with (logged LogDisposing s).
  unfold bind at 1. rewrite Hstop.
  unfold bind at 1. cbn [call]. unfold bind at 1. cbn [call].
  unfold bind at 1. unfold gets at 1. cbn [engine].
  unfold bind at 1. rewrite revoke_loop. cbn.
  unfold disposed. destruct (engine s1); reflexivity.
Qed.

Lemma dispose_only_after_stop : forall s e s1,
  stopActiveAnimation (logged LogDisposing s) = (Throw e, s1) ->
  dispose s = (Throw e, s1).
Proof.
  intros s e s1 Hstop. unfold dispose.
  unfold bind at 1. cbn [console call].
  change {| engine := engine s; next_url := next_url s;
            trace := Console LogDisposing :: trace s |}
    with (logged LogDisposing s).
  unfold bind at 1. rewrite Hstop. reflexivity.
Qed.

(** A [dispose] that returns has cleared the cache, the buffer and the
    index. *)
Lemma dispose_clears : forall s s',
  dispose s = (Ok tt, s') ->
  indexMap (engine s') = None /\ buffer (engine s') = None
  /\ thumbUrls (engine s') = [].
Proof.
  intros s s' H.
  destruct (stopActiveAnimation (logged LogDisposing s)) as [[[]|e] s1] eqn:Hstop.
  - rewrite (dispose_closed s s1 Hstop) in H. injection H as <-.
    repeat split; reflexivity.
  - rewrite (dispose_only_after_stop s e s1 Hstop) in H. discriminate.
Qed.

Lemma alive_revoke_each : forall k us tr t,
  In t (alive k (revoke_each us tr)) <-> In t (alive k tr) /\ ~ In t us.
Proof.
  induction us as [|u us IH]; intros tr t; cbn.
  - tauto.
  - rewrite IH. cbn. rewrite filter_In.
    destruct (Nat.eqb_spec t u); cbn; intuition congruence.
Qed.

Lemma revocations_revoke_each_other : forall us tr t,
  ~ In t us -> revocations (revoke_each us tr) t = revocations tr t.
Proof.
  induction us as [|u us IH]; intros tr t Hn; cbn in *; [reflexivity|].
  rewrite IH by tauto. cbn.
  destruct (Nat.eqb_spec u t); [subst; tauto|reflexivity].
Qed.

Lemma revocations_revoke_each_once : forall us tr t,
  NoDup us -> In t us -> revocations (revoke_each us tr) t = S (revocations tr t).
Proof.
  induction us as [|u us IH]; intros tr t Hnd Hin; cbn in *; [contradiction|].
  inversion Hnd; subst. destruct Hin as [->|Hin].
  - rewrite revocations_revoke_each_other by assumption. cbn.
    rewrite Nat.eqb_refl. reflexivity.
  - rewrite IH by assumption. cbn.
    destruct (Nat.eqb_spec u t); [subst; contradiction|reflexivity].
Qed.

Lemma no_member_nil : forall (l : list url), (forall t, ~ In t l) -> l = [].
Proof.
  intros [|a l] H; [reflexivity|]. exfalso. apply (H a). left; reflexivity.
Qed.

(** X4. The engine after a load and playback only: [dispose] returns, no
    handle of either kind stays alive, each thumbnail handle and the active
    animation handle were revoked once, and the cache, the buffer and the
    index are cleared. *)
Lemma dispose_releases_loaded : forall JSON_parse,
  (forall text obj, JSON_parse text = Some (Some obj) -> NoDup (Object_keys obj)) ->
  forall s, loaded_engine JSON_parse s ->
  exists s', dispose s = (Ok tt, s')
    /\ alive ThumbnailBlob (trace s') = []
    /\ alive AnimationBlob (trace s') = []
    /\ (forall t, In t (Map_values (thumbUrls (engine s))) ->
          revocations (trace s') t = 1%nat)
    /\ (forall u, animUrl (activeState (engine s)) = Some u ->
          revocations (trace s') u = 1%nat)
    /\ Idle s'
    /\ thumbUrls (engine s') = [] /\ buffer (engine s') = None
    /\ indexMap (engine s') = None.
Proof.
  intros JSON_parse Hkeys s Hs.
  destruct (loaded_Inv JSON_parse Hkeys s Hs) as (obj & buf & headerLen & _ & _ & HI).
  pose proof (Inv_logged _ _ _ _ LogDisposing HI) as HI0.
  pose proof (Inv_stop _ _ _ _ HI0) as HI1.
  assert (Hstop : exists s1,
            stopActiveAnimation (logged LogDisposing s) = (Ok tt, s1)
            /\ Idle s1
            /\ thumbUrls (engine s1) = thumbUrls (engine s)
            /\ (forall u, animUrl (activeState (engine s)) = Some u ->
                  revocations (trace s1) u = 1%nat
                  /\ ~ In u (Map_values (thumbUrls (engine s))))).
  { destruct (inv_active _ _ _ _ HI0)
      as [[Hidle _]|(id & el & u & m & r & Hid & Hp & Hal & _ & _ & _ & _ & _ & Hrev)].
    - exists (logged LogDisposing s). split.
      + apply stop_when_idle. unfold Idle in Hidle. rewrite Hidle. reflexivity.
      + split; [assumption|]. split; [reflexivity|].
        intros u Hu. unfold Idle in Hidle. cbn in Hidle. rewrite Hidle in Hu. discriminate.
    - exists (stopped id el u (logged LogDisposing s)). split.
      + apply stop_when_playing; assumption.
      + split; [reflexivity|]. split; [reflexivity|].
        intros u' Hu'. unfold Playing in Hp. cbn in Hp. rewrite Hp in Hu'.
        injection Hu' as <-. cbn. rewrite Nat.eqb_refl. cbn in Hrev. rewrite Hrev.
        split; [reflexivity|]. intro Hin.
        apply (thumb_is_not_anim (logged LogDisposing s) u u
                 (inv_urls _ _ _ _ HI0) (inv_cache _ _ _ _ HI0) Hin); [|reflexivity].
        rewrite Hal. left; reflexivity. }
  destruct Hstop as (s1 & Hstop & Hidle1 & Hthumbs & Hanim).
  rewrite Hstop in HI1. cbn [snd] in HI1.
  pose proof (inv_cache _ _ _ _ HI1) as (Hc1 & Hc2 & Hc3).
  exists (disposed s1). split; [apply dispose_closed; assumption|].
  split.
  { apply no_member_nil. intros t Hin. cbn in Hin.
    apply alive_revoke_each in Hin. destruct Hin as [Hin Hout].
    cbn in Hin. apply Hout, Hc1, Hin. }
  split.
  { apply no_member_nil. intros t Hin. cbn in Hin.
    apply alive_revoke_each in Hin. destruct Hin as [Hin _]. cbn in Hin.
    rewrite (idle_no_animation _ _ _ _ (inv_active _ _ _ _ HI1) Hidle1) in Hin.
    contradiction. }
  split.
  { intros t Hin. rewrite <- Hthumbs in Hin. cbn.
    rewrite revocations_revoke_each_once by assumption. cbn.
    rewrite (Hc3 t Hin). reflexivity. }
  split.
  { intros u Hu. destruct (Hanim u Hu) as [Hrev Hnot]. cbn.
    rewrite revocations_revoke_each_other by (rewrite Hthumbs; assumption).
    exact Hrev. }
  split; [exact Hidle1|]. repeat split; reflexivity.
Qed.

(** ** The active playback state is never partial *)

Lemma stop_whole : forall s,
  whole (activeState (engine s)) ->
  exists s', stopActiveAnimation s = (Ok tt, s') /\ Idle s'.
Proof.
  intros s [H|(id & el & u & Hid & H)].
  - exists s. split; [apply stop_when_idle; rewrite H; reflexivity|exact H].
  - exists (stopped id el u s). split; [|reflexivity].
    apply stop_when_playing; assumption.
Qed.

Lemma play_whole : forall s id el,
  id <> "" -> whole (activeState (engine s)) ->
  whole (activeState (engine (snd (playAnimation id el s)))).
Proof.
  intros s id el Hid H. unfold playAnimation, bind, gets.
  destruct (indexMap (engine s)) as [obj|]; cbn; [|assumption].
  destruct (obj_lookup obj id) as [m| |]; cbn; [|assumption|assumption].
  destruct (buffer (engine s)) as [b|]; cbn; [|assumption].
  destruct (anim m) as [r|]; cbn; [|assumption].
  right. eauto.
Qed.

Lemma tap_whole : forall s tgt,
  whole (activeState (engine s)) ->
  whole (activeState (engine (snd (handleTap tgt s)))).
Proof.
  intros s tgt H.
  destruct (tap_cases tgt) as [[id Htap]|Hno].
  2:{ rewrite tap_ignored by assumption. assumption. }
  pose proof Htap as (_ & _ & Hid).
  destruct H as [H|(prev & el & u & Hprev & H)].
  - rewrite (tap_when_idle s tgt id Htap H).
    apply play_whole; [assumption|]. left. exact H.
  - destruct (String.eqb_spec prev id) as [->|Hne].
    + rewrite (tap_same s tgt id el u Htap H). left. reflexivity.
    + rewrite (tap_other s tgt id prev el u Htap H Hprev Hne).
      apply play_whole; [assumption|]. left. reflexivity.
Qed.

Lemma observer_whole : forall entries s,
  whole (activeState (engine s)) ->
  whole (activeState (engine (snd (observerCallback entries s)))).
Proof.
  unfold observerCallback.
  induction entries as [|entry entries IH]; intros s H; cbn; [assumption|].
  unfold bind at 1. unfold bind at 1. unfold gets at 1.
  match goal with |- context [if ?c then _ else _] => destruct c end.
  - destruct (stop_whole s H) as (s' & -> & Hidle). apply IH. left. exact Hidle.
  - cbn. apply IH. assumption.
Qed.

Lemma dispose_whole : forall s,
  whole (activeState (engine s)) ->
  exists s', dispose s = (Ok tt, s') /\ Idle s'.
Proof.
  intros s H. destruct (stop_whole (logged LogDisposing s) H) as (s1 & Hstop & Hidle).
  exists (disposed s1). split; [apply dispose_closed; assumption|exact Hidle].
Qed.

Section Reachable.

Variable JSON_parse : list byte -> option (option IndexMap).

Lemma load_keeps_active : forall fo s,
  activeState (engine (snd (load JSON_parse fo s))) = activeState (engine s).
Proof.
  intros fo s. rewrite load_eq. unfold load_closed.
  destruct fo as [|[|] status body]; try reflexivity.
  destruct (getUint32 body 0) as [headerLen|]; [|reflexivity].
  destruct (Uint8Array body 4 headerLen) as [text|]; [|reflexivity].
  destruct (JSON_parse text) as [[obj|]|]; [|reflexivity|reflexivity].
  destruct (forallb has_thumb obj); cbn; rewrite materialized_engine; reflexivity.
Qed.

Lemma reachable_whole : forall s,
  reachable JSON_parse s -> whole (activeState (engine s)).
Proof.
  intros s H. induction H as [|ev s Hs IH]; [left; reflexivity|].
  destruct ev; cbn [exec].
  - rewrite load_keeps_active. assumption.
  - apply tap_whole; assumption.
  - apply observer_whole; assumption.
  - destruct (stop_whole s IH) as (s' & -> & Hidle). left. exact Hidle.
  - unfold getItemData, bind, gets. destruct (indexMap (engine s)) as [obj|]; cbn;
      [destruct (obj_lookup obj id); cbn|]; assumption.
  - assumption.
  - destruct (dispose_whole s IH) as (s' & -> & Hidle). left. exact Hidle.
Qed.

(** On every engine [dispose()] returns, and leaves it without an index. *)
Lemma dispose_returns : forall s,
  reachable JSON_parse s ->
  exists s', dispose s = (Ok tt, s')
    /\ indexMap (engine s') = None /\ buffer (engine s') = None
    /\ thumbUrls (engine s') = [] /\ Idle s'.
Proof.
  intros s H. destruct (dispose_whole s (reachable_whole s H)) as (s' & Hd & Hidle).
  destruct (dispose_clears s s' Hd) as (Hi & Hb & Ht).
  exists s'. repeat split; assumption.
Qed.

End Reachable.

(** ** The sample parser *)

Lemma sample_keys : forall text obj,
  Sample.JSON_parse text = Some (Some obj) -> NoDup (Object_keys obj).
Proof.
  intros text obj H. unfold Sample.JSON_parse in H.
  repeat match type of H with
         | (if ?c then _ else _) = _ => destruct c
         end; try discriminate;
    injection H as <-; cbn; repeat constructor; cbn; intuition discriminate.
Qed.

Lemma sample_loaded_a : loaded_engine Sample.JSON_parse Sample.loaded_a.
Proof.
  apply (loaded_by_load Sample.JSON_parse (Sample.fetched Sample.blob_a)
           (Some Sample.index_a)).
  vm_compute. reflexivity.
Qed.

Lemma sample_loaded_ab : loaded_engine Sample.JSON_parse Sample.loaded_ab.
Proof.
  apply (loaded_by_load Sample.JSON_parse (Sample.fetched Sample.blob_ab)
           (Some Sample.index_ab)).
  vm_compute. reflexivity.
Qed.

(** ** The properties on the sample blobs *)

Lemma sample_playing_a : loaded_engine Sample.JSON_parse Sample.playing_a.
Proof.
  apply (loaded_then Sample.JSON_parse (Tap Sample.img_a) Sample.loaded_ab);
    [exact sample_loaded_ab|reflexivity].
Qed.

Lemma sample_tappable : forall ref id, id <> "" -> tappable (Sample.img ref id) id.
Proof. intros ref id H. repeat split. assumption. Qed.

(** C1 on the two-entry sample: tap "a", tap "b", tap "b". *)
Lemma single_active_animation_witness :
  loaded_engine Sample.JSON_parse Sample.loaded_ab
  /\ (let s' := run Sample.JSON_parse
                  (map Tap [Sample.img_a; Sample.img_b; Sample.img_b])
                  Sample.loaded_ab in
      at_all_times single_active (trace s')
      /\ alive AnimationBlob (trace s')
         = match animUrl (activeState (engine s')) with
           | Some u => [u]
           | None => []
           end).
Proof.
  split; [exact sample_loaded_ab|].
  exact (single_active_animation Sample.JSON_parse sample_keys Sample.loaded_ab
           [Sample.img_a; Sample.img_b; Sample.img_b] sample_loaded_ab).
Defined.

(** C7 on the two-entry sample: "a" is playing and the element of "b" is
    tapped. *)
Lemma switch_releases_then_plays_witness :
  Playing "a" Sample.img_a 2%nat Sample.playing_a
  /\ exists uB tA buf,
       buffer (engine Sample.playing_a) = Some buf
       /\ Map_get (thumbUrls (engine Sample.playing_a)) "a" = Some tA
       /\ handleTap Sample.img_b Sample.playing_a
          = (Ok tt,
             played "b" Sample.img_b
               (slice_of buf (payloadStart (engine Sample.playing_a))
                  {| offset := 8; length := 4 |})
               (logged (LogPlay "b")
                  (stopped "a" Sample.img_a 2%nat
                     (logged (LogStopPrevious "a") Sample.playing_a))))
       /\ Playing "b" Sample.img_b uB
            (exec Sample.JSON_parse (Tap Sample.img_b) Sample.playing_a)
       /\ trace (exec Sample.JSON_parse (Tap Sample.img_b) Sample.playing_a)
          = Observe Sample.img_b :: SetSrc Sample.img_b (Some uB)
            :: CreateObjectURL AnimationBlob uB
                 (slice_of buf (payloadStart (engine Sample.playing_a))
                    {| offset := 8; length := 4 |})
            :: Console (LogPlay "b")
            :: RevokeObjectURL 2%nat :: SetSrc Sample.img_a (Some tA)
            :: Unobserve Sample.img_a
            :: Console (LogStopPrevious "a") :: trace Sample.playing_a
       /\ alive AnimationBlob
            (trace (exec Sample.JSON_parse (Tap Sample.img_b) Sample.playing_a)) = [uB]
       /\ uB <> 2%nat
       /\ revocations
            (trace (exec Sample.JSON_parse (Tap Sample.img_b) Sample.playing_a)) 2%nat = 1%nat
       /\ In tA (alive ThumbnailBlob
                   (trace (exec Sample.JSON_parse (Tap Sample.img_b) Sample.playing_a))).
Proof.
  split; [vm_compute; reflexivity|].
  apply (switch_releases_then_plays Sample.JSON_parse sample_keys Sample.playing_a
           "a" Sample.img_a 2%nat Sample.img_b "b" Sample.index_ab
           {| width := 20; height := 20;
              thumb := Some {| offset := 6; length := 2 |};
              anim := Some {| offset := 8; length := 4 |} |}
           {| offset := 8; length := 4 |}).
  - exact sample_playing_a.
  - vm_compute. reflexivity.
  - apply sample_tappable. discriminate.
  - discriminate.
  - vm_compute. reflexivity.
  - reflexivity.
  - reflexivity.
Defined.

(** C8 on the scenario of the design: the element of "a" is tapped twice. *)
Lemma toggle_returns_to_idle_witness :
  Idle Sample.loaded_a
  /\ (let s1 := exec Sample.JSON_parse (Tap Sample.img_a) Sample.loaded_a in
      let s2 := exec Sample.JSON_parse (Tap Sample.img_a) s1 in
      exists u t rt buf,
        Playing "a" Sample.img_a u s1
        /\ Idle s2
        /\ engine s2 = engine Sample.loaded_a
        /\ Some {| offset := 0; length := 4 |} = Some rt
        /\ buffer (engine Sample.loaded_a) = Some buf
        /\ Map_get (thumbUrls (engine Sample.loaded_a)) "a" = Some t
        /\ blob_of (trace s2) t
           = Some (slice_of buf (payloadStart (engine Sample.loaded_a)) rt)
        /\ In t (alive ThumbnailBlob (trace s2))
        /\ displayed (trace s2) Sample.img_a = Some (Some t)
        /\ observing (trace s2) Sample.img_a = false
        /\ alive AnimationBlob (trace s2) = []
        /\ revocations (trace s2) u = 1%nat).
Proof.
  split; [reflexivity|].
  apply (toggle_returns_to_idle Sample.JSON_parse sample_keys Sample.loaded_a
           Sample.img_a "a" Sample.index_a
           {| width := 10; height := 10;
              thumb := Some {| offset := 0; length := 4 |};
              anim := Some {| offset := 4; length := 8 |} |}
           {| offset := 4; length := 8 |}).
  - exact sample_loaded_a.
  - reflexivity.
  - apply sample_tappable. discriminate.
  - vm_compute. reflexivity.
  - reflexivity.
  - reflexivity.
Defined.

Lemma sample_loaded_noanim : loaded_engine Sample.JSON_parse Sample.loaded_noanim.
Proof.
  apply (loaded_by_load Sample.JSON_parse (Sample.fetched Sample.blob_noanim)
           (Some Sample.index_noanim)).
  vm_compute. reflexivity.
Qed.

Lemma sample_noanim_playing_a : loaded_engine Sample.JSON_parse Sample.noanim_playing_a.
Proof.
  apply (loaded_then Sample.JSON_parse (Tap Sample.img_a) Sample.loaded_noanim);
    [exact sample_loaded_noanim|reflexivity].
Qed.

(** C7 as stated fails for a known id whose entry has no [anim]: [load]
    accepts the index (every entry has its [thumb]), "a" is playing, and the
    tap on the element of the known id "b" stops "a" and then throws a
    TypeError at [meta.anim.offset].  The engine is left Idle, not Playing
    "b", and no handle is alive. *)
Lemma known_id_without_anim_is_not_played :
  loaded_engine Sample.JSON_parse Sample.noanim_playing_a
  /\ Playing "a" Sample.img_a 2%nat Sample.noanim_playing_a
  /\ tappable Sample.img_b "b"
  /\ indexMap (engine Sample.noanim_playing_a) = Some Sample.index_noanim
  /\ In "b" (Object_keys Sample.index_noanim)
  /\ fst (handleTap Sample.img_b Sample.noanim_playing_a) = Throw TypeError
  /\ Idle (exec Sample.JSON_parse (Tap Sample.img_b) Sample.noanim_playing_a)
  /\ (forall uB,
        ~ Playing "b" Sample.img_b uB
            (exec Sample.JSON_parse (Tap Sample.img_b) Sample.noanim_playing_a))
  /\ alive AnimationBlob
       (trace (exec Sample.JSON_parse (Tap Sample.img_b) Sample.noanim_playing_a)) = []
  /\ revocations
       (trace (exec Sample.JSON_parse (Tap Sample.img_b) Sample.noanim_playing_a)) 2%nat
     = 1%nat.
Proof.
  split; [exact sample_noanim_playing_a|]. split; [vm_compute; reflexivity|].
  split; [apply sample_tappable; discriminate|]. split; [vm_compute; reflexivity|].
  split; [right; left; reflexivity|]. split; [vm_compute; reflexivity|].
  split; [vm_compute; reflexivity|].
  split; [intros uB H; vm_compute in H; discriminate H|].
  split; vm_compute; reflexivity.
Qed.

(** C8 as stated fails for a known id whose entry has no [anim]: both taps
    on the element of "b" throw a TypeError, no handle is created (so none
    is revoked), the engine never plays "b", and it never assigns the
    thumbnail to the element. *)
Lemma toggle_without_anim_throws :
  loaded_engine Sample.JSON_parse Sample.loaded_noanim
  /\ Idle Sample.loaded_noanim
  /\ tappable Sample.img_b "b"
  /\ indexMap (engine Sample.loaded_noanim) = Some Sample.index_noanim
  /\ In "b" (Object_keys Sample.index_noanim)
  /\ (let s1 := exec Sample.JSON_parse (Tap Sample.img_b) Sample.loaded_noanim in
      let s2 := exec Sample.JSON_parse (Tap Sample.img_b) s1 in
      fst (handleTap Sample.img_b Sample.loaded_noanim) = Throw TypeError
      /\ fst (handleTap Sample.img_b s1) = Throw TypeError
      /\ (forall u, ~ Playing "b" Sample.img_b u s1)
      /\ next_url s2 = next_url Sample.loaded_noanim
      /\ displayed (trace s2) Sample.img_b = None
      /\ (exists t, Map_get (thumbUrls (engine s2)) "b" = Some t
                    /\ displayed (trace s2) Sample.img_b <> Some (Some t))).
Proof.
  split; [exact sample_loaded_noanim|]. split; [vm_compute; reflexivity|].
  split; [apply sample_tappable; discriminate|]. split; [vm_compute; reflexivity|].
  split; [right; left; reflexivity|].
  cbv zeta. split; [vm_compute; reflexivity|]. split; [vm_compute; reflexivity|].
  split; [intros u H; vm_compute in H; discriminate H|].
  split; [vm_compute; reflexivity|]. split; [vm_compute; reflexivity|].
  exists 1%nat. split; [vm_compute; reflexivity|]. vm_compute. discriminate.
Qed.



(** C6 on a blob whose header declares 200 bytes of index and which has 97
    bytes in all. *)
Lemma short_blob_is_format_error_witness :
  getUint32 Sample.blob_short 0 = Some 200
  /\ byteLength Sample.blob_short < 4 + 200
  /\ exists s',
       load Sample.JSON_parse (FetchResponse true 200 Sample.blob_short)
         new_GalleryEngine = (Throw RangeError, s')
       /\ FormatError RangeError
       /\ indexMap (engine s') = indexMap (engine new_GalleryEngine)
       /\ payloadStart (engine s') = payloadStart (engine new_GalleryEngine)
       /\ thumbUrls (engine s') = thumbUrls (engine new_GalleryEngine)
       /\ activeState (engine s') = activeState (engine new_GalleryEngine)
       /\ buffer (engine s') = Some Sample.blob_short
       /\ trace s' = Console (ErrLoadFailed RangeError) :: Console LogLoading
                     :: trace new_GalleryEngine.
Proof.
  assert (H1 : getUint32 Sample.blob_short 0 = Some 200) by (vm_compute; reflexivity).
  assert (H2 : byteLength Sample.blob_short < 4 + 200) by (vm_compute; reflexivity).
  split; [exact H1|]. split; [exact H2|].
  exact (short_blob_is_format_error Sample.JSON_parse new_GalleryEngine 200
           Sample.blob_short 200 H1 H2).
Defined.

(** C10 on a new engine. *)
Lemma queries_without_index_witness :
  indexMap (engine new_GalleryEngine) = None
  /\ getAllIds new_GalleryEngine = (Ok [], new_GalleryEngine)
  /\ getItemData "missing" new_GalleryEngine
     = (Ok None, logged (WarnItemMissing "missing") new_GalleryEngine).
Proof.
  split; [reflexivity|].
  exact (queries_without_index new_GalleryEngine "missing" eq_refl).
Defined.

(** C10 as stated fails on an engine whose load failed in
    [initThumbnails]: the load has not succeeded, the index is set, and the
    queries answer from it. *)
Lemma failed_load_leaves_index :
  fst (load Sample.JSON_parse (Sample.fetched Sample.blob_nothumb) new_GalleryEngine)
  = Throw TypeError
  /\ fst (getAllIds Sample.after_nothumb) = Ok ["a"; "b"]
  /\ fst (getAllIds Sample.after_nothumb) <> Ok []
  /\ fst (getItemData "b" Sample.after_nothumb)
     = Ok (Some {| item_url := None; item_width := Some 20; item_height := Some 20 |})
  /\ fst (getItemData "b" Sample.after_nothumb) <> Ok None.
Proof.
  repeat split; try (vm_compute; reflexivity); vm_compute; discriminate.
Qed.

Lemma sample_reloaded_playing_b :
  indexMap (engine Sample.reloaded_playing_b) = Some Sample.index_a
  /\ Playing "b" Sample.img_b 2%nat Sample.reloaded_playing_b.
Proof. split; vm_compute; reflexivity. Qed.

(** C2 on the samples: with nothing playing the element of an unknown id
    is tapped; while "a" is playing the element of the id [constructor] is
    tapped; and the element of "b" is tapped while "b" is playing and the
    index, reloaded, has no "b". *)
Lemma unknown_id_tap_witness :
  (indexMap (engine Sample.loaded_ab) = Some Sample.index_ab
   /\ ~ In "missing" (Object_keys Sample.index_ab)
   /\ tappable Sample.img_missing "missing"
   /\ inherited "missing" = false
   /\ Idle Sample.loaded_ab
   /\ exists s', handleTap Sample.img_missing Sample.loaded_ab = (Ok tt, s')
        /\ engine s' = engine Sample.loaded_ab
        /\ next_url s' = next_url Sample.loaded_ab
        /\ trace s' = Console (WarnAnimMissing "missing")
                      :: Console (LogPlay "missing") :: trace Sample.loaded_ab)
  /\ (indexMap (engine Sample.playing_a) = Some Sample.index_ab
      /\ ~ In "constructor" (Object_keys Sample.index_ab)
      /\ tappable Sample.img_constructor "constructor"
      /\ inherited "constructor" = true
      /\ Playing "a" Sample.img_a 2%nat Sample.playing_a
      /\ exists s', handleTap Sample.img_constructor Sample.playing_a
                    = (Throw TypeError, s')
           /\ Idle s'
           /\ next_url s' = next_url Sample.playing_a
           /\ trace s' = Console (LogPlay "constructor")
                         :: RevokeObjectURL 2%nat
                         :: SetSrc Sample.img_a
                              (Map_get (thumbUrls (engine Sample.playing_a)) "a")
                         :: Unobserve Sample.img_a
                         :: Console (LogStopPrevious "a") :: trace Sample.playing_a)
  /\ (indexMap (engine Sample.reloaded_playing_b) = Some Sample.index_a
      /\ ~ In "b" (Object_keys Sample.index_a)
      /\ tappable Sample.img_b "b"
      /\ Playing "b" Sample.img_b 2%nat Sample.reloaded_playing_b
      /\ exists s', handleTap Sample.img_b Sample.reloaded_playing_b = (Ok tt, s')
           /\ Idle s'
           /\ next_url s' = next_url Sample.reloaded_playing_b
           /\ trace s' = RevokeObjectURL 2%nat
                         :: SetSrc Sample.img_b
                              (Map_get (thumbUrls (engine Sample.reloaded_playing_b)) "b")
                         :: Unobserve Sample.img_b
                         :: Console (LogStop "b") :: trace Sample.reloaded_playing_b).
Proof.
  assert (H1 : indexMap (engine Sample.loaded_ab) = Some Sample.index_ab)
    by (vm_compute; reflexivity).
  assert (H2 : ~ In "missing" (Object_keys Sample.index_ab))
    by (cbn; intuition discriminate).
  assert (H3 : tappable Sample.img_missing "missing")
    by (apply sample_tappable; discriminate).
  assert (K1 : indexMap (engine Sample.playing_a) = Some Sample.index_ab)
    by (vm_compute; reflexivity).
  assert (K2 : ~ In "constructor" (Object_keys Sample.index_ab))
    by (cbn; intuition discriminate).
  assert (K3 : tappable Sample.img_constructor "constructor")
    by (apply sample_tappable; discriminate).
  assert (K4 : Playing "a" Sample.img_a 2%nat Sample.playing_a)
    by (vm_compute; reflexivity).
  destruct sample_reloaded_playing_b as [L1 L4].
  assert (L2 : ~ In "b" (Object_keys Sample.index_a))
    by (cbn; intuition discriminate).
  assert (L3 : tappable Sample.img_b "b")
    by (apply sample_tappable; discriminate).
  split; [|split].
  - split; [exact H1|]. split; [exact H2|]. split; [exact H3|].
    split; [reflexivity|]. split; [reflexivity|].
    exact (proj1 (proj1 (unknown_id_tap Sample.loaded_ab Sample.img_missing "missing"
                           Sample.index_ab H1 H2 H3) eq_refl) eq_refl).
  - split; [exact K1|]. split; [exact K2|]. split; [exact K3|].
    split; [reflexivity|]. split; [exact K4|].
    exact (proj2 (proj1 (proj2 (unknown_id_tap Sample.playing_a Sample.img_constructor
                                  "constructor" Sample.index_ab K1 K2 K3)) eq_refl)
             "a" Sample.img_a 2%nat K4
             ltac:(discriminate) ltac:(discriminate)).
  - split; [exact L1|]. split; [exact L2|]. split; [exact L3|]. split; [exact L4|].
    exact (proj2 (proj2 (unknown_id_tap Sample.reloaded_playing_b Sample.img_b "b"
                           Sample.index_a L1 L2 L3))
             Sample.img_b 2%nat L4).
Defined.

(** C2 as stated fails while something is playing: the tap on the element
    of an unknown id stops the playback of "a".  It fails too, with nothing
    playing, for an id that names a member of [Object.prototype]: the tap
    throws and no warning is logged. *)
Lemma unknown_id_tap_stops_playback :
  Playing "a" Sample.img_a 2%nat Sample.playing_a
  /\ ~ In "missing" (Object_keys Sample.index_ab)
  /\ tappable Sample.img_missing "missing"
  /\ activeState (engine (exec Sample.JSON_parse (Tap Sample.img_missing) Sample.playing_a))
     = idle
  /\ activeState (engine (exec Sample.JSON_parse (Tap Sample.img_missing) Sample.playing_a))
     <> activeState (engine Sample.playing_a)
  /\ ~ In "constructor" (Object_keys Sample.index_ab)
  /\ tappable Sample.img_constructor "constructor"
  /\ fst (handleTap Sample.img_constructor Sample.loaded_ab) = Throw TypeError
  /\ existsb is_warning
       (console_of (trace (snd (handleTap Sample.img_constructor Sample.loaded_ab))))
     = false.
Proof.
  split; [vm_compute; reflexivity|]. split; [cbn; intuition discriminate|].
  split; [apply sample_tappable; discriminate|].
  split; [vm_compute; reflexivity|]. split; [vm_compute; discriminate|].
  split; [cbn; intuition discriminate|].
  split; [apply sample_tappable; discriminate|].
  split; vm_compute; reflexivity.
Qed.

(** C3 on the two-entry sample: "a" is playing and its element is reported
    outside the viewport. *)
Lemma reclaim_when_not_intersecting_witness :
  Playing "a" Sample.img_a 2%nat Sample.playing_a
  /\ "a" <> ""
  /\ observerCallback [Sample.entry_gone] Sample.playing_a
     = (Ok tt, stopped "a" Sample.img_a 2%nat Sample.playing_a).
Proof.
  assert (H : Playing "a" Sample.img_a 2%nat Sample.playing_a) by (vm_compute; reflexivity).
  assert (Hne : "a" <> "") by discriminate.
  split; [exact H|]. split; [exact Hne|].
  exact (reclaim_when_not_intersecting Sample.playing_a "a" Sample.img_a 2%nat
           [Sample.entry_gone] H Hne).
Defined.

(** C3 as stated fails when the playing element leaves full intersection
    and still intersects: half of it is visible, the callback is handed the
    entry, and the playback goes on with its handle alive. *)
Lemma partial_departure_is_not_reclaimed :
  Playing "a" Sample.img_a 2%nat Sample.playing_a
  /\ same_object (target Sample.entry_half) Sample.img_a = true
  /\ (intersectionRatio Sample.entry_half < 1)%Q
  /\ observerCallback [Sample.entry_half] Sample.playing_a = (Ok tt, Sample.playing_a)
  /\ Playing "a" Sample.img_a 2%nat
       (exec Sample.JSON_parse (Intersection [Sample.entry_half]) Sample.playing_a)
  /\ alive AnimationBlob
       (trace (exec Sample.JSON_parse (Intersection [Sample.entry_half]) Sample.playing_a))
     = [2%nat].
Proof.
  repeat split; vm_compute; reflexivity.
Qed.

(** C4 on the malformed sample: the first entry has no [thumb]. *)
Lemma initThumbnails_stops_at_missing_thumb_witness :
  indexMap (engine Sample.after_nothumb) = Some Sample.index_nothumb
  /\ buffer (engine Sample.after_nothumb) = Some Sample.blob_nothumb
  /\ exists s', initThumbnails Sample.after_nothumb = (Throw TypeError, s')
       /\ console_of (trace s')
          = LogThumbInit :: console_of (trace Sample.after_nothumb)
       /\ next_url s' = (next_url Sample.after_nothumb + 0)%nat
       /\ (forall k, In k [] -> covered s' k)
       /\ (forall k, ~ In k [] ->
             Map_get (thumbUrls (engine s')) k
             = Map_get (thumbUrls (engine Sample.after_nothumb)) k).
Proof.
  assert (H1 : indexMap (engine Sample.after_nothumb) = Some Sample.index_nothumb)
    by (vm_compute; reflexivity).
  assert (H2 : buffer (engine Sample.after_nothumb) = Some Sample.blob_nothumb)
    by (vm_compute; reflexivity).
  split; [exact H1|]. split; [exact H2|].
  exact (proj2 (initThumbnails_stops_at_missing_thumb Sample.after_nothumb
                  Sample.index_nothumb Sample.blob_nothumb H1 H2)
           [] "a"
           {| width := 10; height := 10; thumb := None;
              anim := Some {| offset := 2; length := 4 |} |}
           [("b", {| width := 20; height := 20;
                     thumb := Some {| offset := 6; length := 2 |};
                     anim := Some {| offset := 8; length := 4 |} |})]
           eq_refl eq_refl eq_refl).
Defined.

(** C4 as stated fails on the malformed sample: the entry without [thumb]
    is not skipped.  [load] and [initThumbnails] throw a TypeError, no
    warning is logged, and the well-formed entry "b" after it receives no
    thumbnail handle. *)
Lemma missing_thumb_aborts_the_batch :
  fst (load Sample.JSON_parse (Sample.fetched Sample.blob_nothumb) new_GalleryEngine)
  = Throw TypeError
  /\ indexMap (engine Sample.after_nothumb) = Some Sample.index_nothumb
  /\ has_thumb ("b", {| width := 20; height := 20;
                        thumb := Some {| offset := 6; length := 2 |};
                        anim := Some {| offset := 8; length := 4 |} |}) = true
  /\ fst (initThumbnails Sample.after_nothumb) = Throw TypeError
  /\ Map_get (thumbUrls (engine (snd (initThumbnails Sample.after_nothumb)))) "b" = None
  /\ Map_get (thumbUrls (engine Sample.after_nothumb)) "b" = None
  /\ existsb is_warning (console_of (trace (snd (initThumbnails Sample.after_nothumb))))
     = false.
Proof.
  repeat split; vm_compute; reflexivity.
Qed.

(** C5 fails on the code when a blob is loaded twice: the second load
    overwrites the cache entries of the first, [dispose()] revokes the
    handles of the second load only, and the two thumbnail handles of the
    first load stay alive, never revoked. *)
Theorem reload_leaks_thumbnails :
  alive ThumbnailBlob (trace Sample.reloaded_and_disposed) = [1%nat; 0%nat]
  /\ revocations (trace Sample.reloaded_and_disposed) 0%nat = 0%nat
  /\ revocations (trace Sample.reloaded_and_disposed) 1%nat = 0%nat
  /\ revocations (trace Sample.reloaded_and_disposed) 2%nat = 1%nat
  /\ revocations (trace Sample.reloaded_and_disposed) 3%nat = 1%nat
  /\ thumbUrls (engine Sample.reloaded_and_disposed) = []
  /\ indexMap (engine Sample.reloaded_and_disposed) = None.
Proof.
  repeat split; vm_compute; reflexivity.
Qed.

(** ** Playback leaves the loaded data alone *)

Lemma same_data_refl : forall e, same_data e e.
Proof. intros e. repeat split. Qed.

Lemma same_data_trans : forall e1 e2 e3,
  same_data e1 e2 -> same_data e2 e3 -> same_data e1 e3.
Proof.
  intros e1 e2 e3 (H1 & H2 & H3 & H4) (K1 & K2 & K3 & K4).
  repeat split; congruence.
Qed.

Lemma keeps_ret : forall A (a : A), keeps_data (ret a).
Proof. intros A a s. apply same_data_refl. Qed.

Lemma keeps_throw : forall A e, keeps_data (@throw A e).
Proof. intros A e s. apply same_data_refl. Qed.

Lemma keeps_gets : forall A (f : Engine -> A), keeps_data (gets f).
Proof. intros A f s. apply same_data_refl. Qed.

Lemma keeps_call : forall c, keeps_data (call c).
Proof. intros c s. apply same_data_refl. Qed.

Lemma keeps_deref : forall A (o : option A), keeps_data (deref o).
Proof. intros A [a|] s; apply same_data_refl. Qed.

Lemma keeps_create : forall k bytes, keeps_data (createObjectURL k bytes).
Proof. intros k bytes s. apply same_data_refl. Qed.

Lemma keeps_revoke : forall u, keeps_data (revokeObjectURL u).
Proof. intros [u|] s; apply same_data_refl. Qed.

Lemma keeps_set_active : forall a, keeps_data (modify (set_activeState a)).
Proof. intros a s. repeat split. Qed.

Lemma keeps_bind : forall A B (m : Eng A) (k : A -> Eng B),
  keeps_data m -> (forall a, keeps_data (k a)) -> keeps_data (bind m k).
Proof.
  intros A B m k Hm Hk s. unfold bind. specialize (Hm s).
  destruct (m s) as [[a|e] s1]; cbn in *; [|assumption].
  eapply same_data_trans; [exact Hm|apply Hk].
Qed.

Lemma keeps_for_of : forall A (l : list A) (body : A -> Eng unit),
  (forall x, keeps_data (body x)) -> keeps_data (for_of l body).
Proof.
  intros A l body Hb. induction l as [|x l IH]; cbn.
  - apply keeps_ret.
  - apply keeps_bind; [apply Hb|intros _; exact IH].
Qed.

Ltac keeps_step :=
  first [ apply keeps_ret | apply keeps_throw | apply keeps_gets | apply keeps_call
        | apply keeps_deref | apply keeps_create | apply keeps_revoke
        | apply keeps_set_active
        | apply keeps_bind; [|intros ?] | apply keeps_for_of; intros ? ].

Lemma keeps_stop : keeps_data stopActiveAnimation.
Proof.
  unfold stopActiveAnimation. apply keeps_bind; [keeps_step|intros a].
  destruct (as_id a) as [id|]; [|keeps_step].
  destruct (String.eqb id ""); repeat keeps_step.
Qed.

Lemma keeps_play : forall id el, keeps_data (playAnimation id el).
Proof.
  intros id el. unfold playAnimation.
  apply keeps_bind; [keeps_step|intros im].
  apply keeps_bind; [keeps_step|intros obj].
  destruct (obj_lookup obj id); unfold console; repeat keeps_step.
Qed.

Lemma keeps_tap : forall tgt, keeps_data (handleTap tgt).
Proof.
  intros tgt. unfold handleTap.
  destruct (negb (String.eqb (tagName tgt) "IMG") || negb (truthy (dataset_id tgt)));
    [keeps_step|].
  destruct (dataset_id tgt) as [id|]; [|keeps_step].
  apply keeps_bind; [keeps_step|intros a].
  destruct (strict_eq (as_id a) id); unfold console.
  - apply keeps_bind; [keeps_step|intros _; apply keeps_stop].
  - apply keeps_bind.
    + destruct (as_id a) as [prev|]; [|keeps_step].
      destruct (String.eqb prev ""); [keeps_step|].
      apply keeps_bind; [keeps_step|intros _; apply keeps_stop].
    + intros _. apply keeps_bind; [keeps_step|intros _; apply keeps_play].
Qed.

Lemma keeps_observer : forall entries, keeps_data (observerCallback entries).
Proof.
  intros entries. unfold observerCallback. apply keeps_for_of. intros entry.
  apply keeps_bind; [keeps_step|intros a].
  match goal with |- context [if ?c then _ else _] => destruct c end;
    [apply keeps_stop|keeps_step].
Qed.

Lemma keeps_getItemData : forall id, keeps_data (getItemData id).
Proof.
  intros id. unfold getItemData. apply keeps_bind; [keeps_step|intros im].
  destruct im as [obj|]; unfold console; [|repeat keeps_step].
  destruct (obj_lookup obj id); repeat keeps_step.
Qed.

Lemma exec_keeps_data : forall JSON_parse ev s,
  playback_event ev = true ->
  same_data (engine s) (engine (exec JSON_parse ev s)).
Proof.
  intros JSON_parse ev s Hev. destruct ev; try discriminate; cbn [exec].
  - apply keeps_tap.
  - apply keeps_observer.
  - apply keeps_stop.
  - apply keeps_getItemData.
  - apply same_data_refl.
Qed.

(** X1. Whatever playback events an engine receives (taps, intersection
    entries, stops, queries), in any state and in any number, its buffer,
    index map, payload base and thumbnail cache stay exactly as they were:
    only a load or a disposal changes them. *)
Theorem playback_keeps_loaded_data : forall JSON_parse evs s,
  forallb playback_event evs = true ->
  same_data (engine s) (engine (run JSON_parse evs s)).
Proof.
  intros JSON_parse evs. unfold run.
  induction evs as [|ev evs IH]; intros s Hall; cbn in *.
  - apply same_data_refl.
  - apply andb_prop in Hall. destruct Hall as [Hev Hall].
    eapply same_data_trans; [apply exec_keeps_data; exact Hev|apply IH; exact Hall].
Qed.

(** ** Further properties of the engine *)



(** X1 on the two-entry sample: a tap, a stop, a query. *)
Lemma playback_keeps_loaded_data_witness :
  forallb playback_event [Tap Sample.img_a; Stop; GetItemData "b"] = true
  /\ same_data (engine Sample.loaded_ab)
       (engine (run Sample.JSON_parse [Tap Sample.img_a; Stop; GetItemData "b"]
                  Sample.loaded_ab)).
Proof.
  split; [reflexivity|].
  exact (playback_keeps_loaded_data Sample.JSON_parse
           [Tap Sample.img_a; Stop; GetItemData "b"] Sample.loaded_ab eq_refl).
Defined.





(** X4 on the two-entry sample, with "a" playing. *)
Lemma dispose_releases_loaded_witness :
  loaded_engine Sample.JSON_parse Sample.playing_a
  /\ exists s', dispose Sample.playing_a = (Ok tt, s')
       /\ alive ThumbnailBlob (trace s') = []
       /\ alive AnimationBlob (trace s') = []
       /\ (forall t, In t (Map_values (thumbUrls (engine Sample.playing_a))) ->
             revocations (trace s') t = 1%nat)
       /\ (forall u, animUrl (activeState (engine Sample.playing_a)) = Some u ->
             revocations (trace s') u = 1%nat)
       /\ Idle s'
       /\ thumbUrls (engine s') = [] /\ buffer (engine s') = None
       /\ indexMap (engine s') = None.
Proof.
  split; [exact sample_playing_a|].
  exact (dispose_releases_loaded Sample.JSON_parse sample_keys Sample.playing_a
           sample_playing_a).
Defined.



(** X6. In a loaded engine [getItemData(id)] of an id of the index returns
    the entry's width and height and the thumbnail handle of the id, which is
    alive and was created over the bytes of the entry's [thumb] range; it
    logs nothing and changes nothing. *)
Theorem getItemData_on_loaded_engine : forall JSON_parse,
  (forall text obj, JSON_parse text = Some (Some obj) -> NoDup (Object_keys obj)) ->
  forall s obj id m, loaded_engine JSON_parse s ->
  indexMap (engine s) = Some obj ->
  obj_get obj id = Some m ->
  exists t r buf,
    getItemData id s
    = (Ok (Some {| item_url := Some t; item_width := Some (width m);
                   item_height := Some (height m) |}), s)
    /\ In t (alive ThumbnailBlob (trace s))
    /\ thumb m = Some r /\ buffer (engine s) = Some buf
    /\ blob_of (trace s) t = Some (slice_of buf (payloadStart (engine s)) r).
Proof.
  intros JSON_parse Hkeys s obj id m Hs Hi Hget.
  destruct (loaded_Inv JSON_parse Hkeys s Hs) as (obj' & buf & headerLen & _ & _ & HI).
  pose proof (inv_index _ _ _ _ HI) as Hi'. rewrite Hi in Hi'. injection Hi' as <-.
  destruct (inv_thumbs _ _ _ _ HI id m Hget) as (r & t & Hr & Hmap & Hblob).
  exists t, r, buf. split.
  - unfold getItemData, bind, gets. rewrite Hi, (lookup_entry _ _ _ Hget), Hmap.
    reflexivity.
  - split; [apply (proj1 (inv_cache _ _ _ _ HI)); eapply Map_get_In_values; eauto|].
    split; [assumption|]. split; [exact (inv_buffer _ _ _ _ HI)|].
    rewrite (inv_payload _ _ _ _ HI). assumption.
Qed.

Lemma getItemData_on_loaded_engine_witness :
  loaded_engine Sample.JSON_parse Sample.loaded_a
  /\ indexMap (engine Sample.loaded_a) = Some Sample.index_a
  /\ exists m t r buf,
       obj_get Sample.index_a "a" = Some m
       /\ getItemData "a" Sample.loaded_a
          = (Ok (Some {| item_url := Some t; item_width := Some (width m);
                         item_height := Some (height m) |}), Sample.loaded_a)
       /\ In t (alive ThumbnailBlob (trace Sample.loaded_a))
       /\ thumb m = Some r /\ buffer (engine Sample.loaded_a) = Some buf
       /\ blob_of (trace Sample.loaded_a) t
          = Some (slice_of buf (payloadStart (engine Sample.loaded_a)) r).
Proof.
  assert (H : indexMap (engine Sample.loaded_a) = Some Sample.index_a)
    by (vm_compute; reflexivity).
  split; [exact sample_loaded_a|]. split; [exact H|].
  destruct (obj_get Sample.index_a "a") as [m|] eqn:Hm; [|discriminate].
  exists m.
  destruct (getItemData_on_loaded_engine Sample.JSON_parse sample_keys
              Sample.loaded_a Sample.index_a "a" m sample_loaded_a H Hm)
    as (t & r & buf & H1 & H2 & H3 & H4 & H5).
  exists t, r, buf. repeat split; assumption.
Defined.

(** X7. A tap that arrives while the engine has no index (before a load
    has stored one, or after [dispose()]) is not guarded: on a tappable
    element, with nothing playing, [handleTap] writes its console line and
    then throws a TypeError out of the click handler; no handle is created
    and the instance is unchanged. *)
Theorem tap_without_index_throws : forall s tgt id,
  indexMap (engine s) = None -> Idle s -> tappable tgt id ->
  handleTap tgt s = (Throw TypeError, logged (LogPlay id) s).
Proof.
  intros s tgt id Hi Hidle Htap. rewrite (tap_when_idle s tgt id Htap Hidle).
  unfold playAnimation, bind, gets. cbn. rewrite Hi. reflexivity.
Qed.

Lemma tap_without_index_throws_witness :
  indexMap (engine new_GalleryEngine) = None
  /\ Idle new_GalleryEngine
  /\ tappable Sample.img_a "a"
  /\ handleTap Sample.img_a new_GalleryEngine
     = (Throw TypeError, logged (LogPlay "a") new_GalleryEngine).
Proof.
  assert (H : tappable Sample.img_a "a") by (apply sample_tappable; discriminate).
  split; [reflexivity|]. split; [reflexivity|]. split; [exact H|].
  exact (tap_without_index_throws new_GalleryEngine Sample.img_a "a"
           eq_refl eq_refl H).
Defined.

(** X8. [playAnimation(id, el)] stops nothing.  Called directly on a loaded
    engine that is playing A, for a known id B, it creates B's handle and
    makes the engine Playing B while A's handle is still alive: two
    animation handles are alive.  The active state no longer refers to A's
    handle, so the [stopActiveAnimation()] that follows revokes B's handle
    only and leaves the engine Idle with A's handle alive, never revoked. *)
Theorem direct_play_keeps_previous_handle : forall JSON_parse,
  (forall text obj, JSON_parse text = Some (Some obj) -> NoDup (Object_keys obj)) ->
  forall s A elA uA B el obj m r,
  loaded_engine JSON_parse s ->
  Playing A elA uA s ->
  B <> "" ->
  indexMap (engine s) = Some obj -> obj_get obj B = Some m -> anim m = Some r ->
  exists uB s1 s2,
    playAnimation B el s = (Ok tt, s1)
    /\ Playing B el uB s1
    /\ alive AnimationBlob (trace s1) = [uB; uA]
    /\ stopActiveAnimation s1 = (Ok tt, s2)
    /\ Idle s2
    /\ alive AnimationBlob (trace s2) = [uA]
    /\ revocations (trace s2) uA = O.
Proof.
  intros JSON_parse Hkeys s A elA uA B el obj m r Hs Hplay HB Hi Hget Hanim.
  destruct (loaded_Inv JSON_parse Hkeys s Hs) as (obj' & buf & headerLen & _ & _ & HI).
  pose proof (inv_buffer _ _ _ _ HI) as Hb.
  destruct (playing_facts _ _ _ _ _ _ _ HI Hplay) as (_ & Hal & Hlt & Hrev & _).
  set (s1 := played B el (slice_of buf (payloadStart (engine s)) r) s).
  assert (Hp1 : Playing B el (next_url s) s1) by reflexivity.
  exists (next_url s), s1, (stopped B el (next_url s) s1).
  split; [apply (play_known s B el obj m buf r); assumption|].
  split; [exact Hp1|].
  split; [cbn; rewrite Hal; reflexivity|].
  split; [apply stop_when_playing; assumption|].
  split; [reflexivity|].
  split.
  - cbn. rewrite Hal. cbn. rewrite Nat.eqb_refl. cbn.
    destruct (Nat.eqb_spec uA (next_url s)); [lia|reflexivity].
  - cbn. destruct (Nat.eqb_spec (next_url s) uA); [lia|assumption].
Qed.

Lemma direct_play_keeps_previous_handle_witness :
  Playing "a" Sample.img_a 2%nat Sample.playing_a
  /\ exists uB s1 s2,
       playAnimation "b" Sample.img_b Sample.playing_a = (Ok tt, s1)
       /\ Playing "b" Sample.img_b uB s1
       /\ alive AnimationBlob (trace s1) = [uB; 2%nat]
       /\ stopActiveAnimation s1 = (Ok tt, s2)
       /\ Idle s2
       /\ alive AnimationBlob (trace s2) = [2%nat]
       /\ revocations (trace s2) 2%nat = O.
Proof.
  assert (H : Playing "a" Sample.img_a 2%nat Sample.playing_a)
    by (vm_compute; reflexivity).
  split; [exact H|].
  apply (direct_play_keeps_previous_handle Sample.JSON_parse sample_keys
           Sample.playing_a "a" Sample.img_a 2%nat "b" Sample.img_b Sample.index_ab
           {| width := 20; height := 20;
              thumb := Some {| offset := 6; length := 2 |};
              anim := Some {| offset := 8; length := 4 |} |}
           {| offset := 8; length := 4 |}).
  - exact sample_playing_a.
  - exact H.
  - discriminate.
  - vm_compute. reflexivity.
  - reflexivity.
  - reflexivity.
Defined.

(** ** When [load] succeeds and how it fails *)

Lemma Uint8Array_view : forall body L,
  0 <= L ->
  Uint8Array body 4 L
  = if 4 + L <=? byteLength body then Some (byte_range body 4 L) else None.
Proof.
  intros body L HL. unfold Uint8Array, byte_range.
  destruct (Z.leb_spec (4 + L) (byteLength body)); cbn; [|reflexivity].
  destruct (Z.leb_spec 0 L); [reflexivity|lia].
Qed.

(** X9. [load] returns exactly when the response is ok, the blob holds the
    4-byte header and the index text the header announces, the text parses
    to an object (not to [null]), and every entry of the index has a
    [thumb]; it then returns the parsed index, and the state is the one
    with the buffer, the index and the payload base stored and the
    thumbnails materialized. *)
Theorem load_succeeds_iff : forall JSON_parse fo s r s',
  load JSON_parse fo s = (Ok r, s')
  <-> exists status body headerLen obj,
        fo = FetchResponse true status body
        /\ getUint32 body 0 = Some headerLen
        /\ 4 + headerLen <= byteLength body
        /\ JSON_parse (byte_range body 4 headerLen) = Some (Some obj)
        /\ forallb has_thumb obj = true
        /\ r = Some obj
        /\ s' = after_load body obj headerLen s.
Proof.
  intros JSON_parse fo s r s'. split.
  - intros H.
    destruct (load_success JSON_parse _ _ _ _ H)
      as (status & body & headerLen & text & obj & -> & Hh & Hv & Hj & Hall & -> & ->).
    rewrite (Uint8Array_view body headerLen (getUint32_nonneg _ _ _ Hh)) in Hv.
    destruct (Z.leb_spec (4 + headerLen) (byteLength body)); [|discriminate].
    injection Hv as <-.
    exists status, body, headerLen, obj. repeat split; assumption.
  - intros (status & body & headerLen & obj & -> & Hh & Hfit & Hj & Hall & -> & ->).
    rewrite load_eq. unfold load_closed. rewrite Hh.
    rewrite (Uint8Array_view body headerLen (getUint32_nonneg _ _ _ Hh)).
    destruct (Z.leb_spec (4 + headerLen) (byteLength body)); [|lia].
    rewrite Hj, Hall. reflexivity.
Qed.




(** ** The build script and the loader *)

Lemma byteLength_app : forall a b, byteLength (a ++ b) = byteLength a + byteLength b.
Proof. intros a b. unfold byteLength. rewrite length_app. lia. Qed.

Lemma byteLength_nonneg : forall a, 0 <= byteLength a.
Proof. intros a. unfold byteLength. lia. Qed.

Lemma byte_range_app_left : forall a b off len,
  0 <= off -> 0 <= len -> off + len <= byteLength a ->
  byte_range (a ++ b) off len = byte_range a off len.
Proof.
  intros a b off len Ho Hl Hfit. unfold byte_range, byteLength in *.
  rewrite skipn_app, firstn_app, length_skipn.
  replace (Z.to_nat off - List.length a)%nat with O by lia.
  replace (Z.to_nat len - (List.length a - Z.to_nat off))%nat with O by lia.
  cbn. rewrite app_nil_r. reflexivity.
Qed.

Lemma byte_range_app_right : forall a b off len,
  0 <= off ->
  byte_range (a ++ b) (byteLength a + off) len = byte_range b off len.
Proof.
  intros a b off len Ho. unfold byte_range, byteLength.
  rewrite skipn_app, skipn_all2 by lia. cbn. f_equal. f_equal. lia.
Qed.

Lemma byte_range_whole : forall a b,
  byte_range (a ++ b) 0 (byteLength a) = a.
Proof.
  intros a b. unfold byte_range, byteLength. cbn.
  rewrite Nat2Z.id, firstn_app, Nat.sub_diag, firstn_all. cbn. apply app_nil_r.
Qed.

Lemma byteZ_byte_of_Z : forall z, byteZ (Build.byte_of_Z z) = Z.land z 255.
Proof.
  intros z. unfold byteZ, Build.byte_of_Z.
  assert (H : 0 <= Z.land z 255 < 256).
  { change 255 with (Z.ones 8). rewrite Z.land_ones by lia.
    apply Z.mod_pos_bound. reflexivity. }
  destruct (Byte.of_N (Z.to_N (Z.land z 255))) as [b|] eqn:E.
  - apply Byte.to_of_N in E. rewrite E. apply Z2N.id. lia.
  - apply Byte.of_N_None_iff in E. lia.
Qed.

Lemma lane_bit : forall n k i,
  0 <= k -> 0 <= i ->
  Z.testbit (Z.shiftl (Z.land (Z.shiftr n k) 255) k) i
  = Z.testbit n i && (k <=? i) && (i <? k + 8).
Proof.
  intros n k i Hk Hi. rewrite Z.shiftl_spec by lia.
  destruct (Z.leb_spec k i).
  - rewrite Z.land_spec, Z.shiftr_spec by lia.
    change 255 with (Z.ones 8). rewrite Z.testbit_ones_nonneg by lia.
    replace (i - k + k) with i by lia.
    destruct (Z.ltb_spec (i - k) 8), (Z.ltb_spec i (k + 8)); try lia;
      rewrite ?andb_true_r, ?andb_false_r; reflexivity.
  - rewrite Z.testbit_neg_r by lia. rewrite andb_false_r. reflexivity.
Qed.

Lemma high_bits_clear : forall n i,
  0 <= n < 2 ^ 32 -> 32 <= i -> Z.testbit n i = false.
Proof.
  intros n i Hn Hi. apply Z.testbit_false; [lia|].
  rewrite Z.div_small; [reflexivity|].
  assert (2 ^ 32 <= 2 ^ i) by (apply Z.pow_le_mono_r; lia). lia.
Qed.

Lemma low_lane_bit : forall n i,
  0 <= i -> Z.testbit (Z.land n 255) i = Z.testbit n i && (i <? 8).
Proof.
  intros n i Hi. rewrite Z.land_spec. change 255 with (Z.ones 8).
  rewrite Z.testbit_ones_nonneg by lia. reflexivity.
Qed.

(** The header the script writes is the header the loader reads. *)
Lemma header_reads_back : forall n h rest,
  Build.writeUInt32LE n = Some h -> getUint32 (h ++ rest) 0 = Some n.
Proof.
  intros n h rest H. unfold Build.writeUInt32LE in H.
  destruct (Z.leb_spec 0 n); [|discriminate].
  destruct (Z.ltb_spec n (2 ^ 32)); [|discriminate].
  cbn [andb] in H. apply (f_equal (fun o => match o with Some l => l | None => [] end)) in H.
  subst h. unfold getUint32. cbn [skipn app].
  f_equal. rewrite !byteZ_byte_of_Z.
  apply Z.bits_inj'. intros i Hi.
  rewrite !Z.lor_spec, low_lane_bit, !lane_bit by lia.
  destruct (Z.ltb_spec i 32) as [Hlow|Hhigh].
  - destruct (Z.testbit n i); cbn [andb]; [|reflexivity].
    destruct (Z.ltb_spec i 8), (Z.leb_spec 8 i),
      (Z.ltb_spec i (8 + 8)), (Z.leb_spec 16 i), (Z.ltb_spec i (16 + 8)),
      (Z.leb_spec 24 i), (Z.ltb_spec i (24 + 8)); cbn [andb orb]; try reflexivity; lia.
  - rewrite (high_bits_clear n i) by lia. reflexivity.
Qed.

Lemma header_length : forall n h, Build.writeUInt32LE n = Some h -> byteLength h = 4.
Proof.
  intros n h H. unfold Build.writeUInt32LE in H.
  destruct ((0 <=? n) && (n <? 2 ^ 32)); [|discriminate].
  injection H as <-. reflexivity.
Qed.

Lemma obj_get_None_keys : forall obj id,
  obj_get obj id = None <-> ~ In id (Object_keys obj).
Proof.
  induction obj as [|[k v] obj IH]; intros id; cbn.
  - split; [intros _ []|reflexivity].
  - destruct (String.eqb_spec k id) as [->|Hne].
    + split; [discriminate|]. intros H. exfalso. apply H. left; reflexivity.
    + rewrite IH. tauto.
Qed.

Lemma obj_get_Some_keys : forall obj id v,
  obj_get obj id = Some v -> In id (Object_keys obj).
Proof.
  intros obj id v H. destruct (in_dec string_dec id (Object_keys obj)) as [Hin|Hn];
    [assumption|].
  apply obj_get_None_keys in Hn. congruence.
Qed.

Lemma obj_replace_same : forall obj id m v,
  obj_get obj id = Some v -> obj_get (Build.obj_replace obj id m) id = Some m.
Proof.
  induction obj as [|[k w] obj IH]; intros id m v H; cbn in *; [discriminate|].
  destruct (String.eqb_spec k id) as [->|Hne]; cbn.
  - rewrite String.eqb_refl. reflexivity.
  - destruct (String.eqb_spec k id); [contradiction|]. eapply IH; eassumption.
Qed.

Lemma obj_replace_other : forall obj id id' m,
  id <> id' -> obj_get (Build.obj_replace obj id m) id' = obj_get obj id'.
Proof.
  induction obj as [|[k w] obj IH]; intros id id' m Hne; cbn; [reflexivity|].
  destruct (String.eqb_spec k id) as [->|Hk]; cbn.
  - destruct (String.eqb_spec id id'); [contradiction|reflexivity].
  - destruct (String.eqb_spec k id'); [reflexivity|]. apply IH; assumption.
Qed.

Lemma obj_replace_keys : forall obj id m,
  Object_keys (Build.obj_replace obj id m) = Object_keys obj.
Proof.
  induction obj as [|[k w] obj IH]; intros id m; cbn; [reflexivity|].
  destruct (String.eqb k id); cbn; [reflexivity|]. rewrite IH. reflexivity.
Qed.

Lemma obj_replace_has_thumb : forall obj id m,
  forallb has_thumb obj = true -> has_thumb (id, m) = true ->
  forallb has_thumb (Build.obj_replace obj id m) = true.
Proof.
  induction obj as [|[k v] obj IH]; intros id m Hall Hm; cbn in *; [reflexivity|].
  apply andb_prop in Hall. destruct Hall as [Hk Hall].
  destruct (String.eqb k id); cbn.
  - unfold has_thumb in *. cbn in *. rewrite Hm, Hall. reflexivity.
  - rewrite Hk. cbn. apply IH; assumption.
Qed.

Lemma obj_insert_index_same : forall obj n id m,
  obj_get obj id = None -> obj_get (Build.obj_insert_index obj n id m) id = Some m.
Proof.
  induction obj as [|[k w] obj IH]; intros n id m H; cbn in *.
  - rewrite String.eqb_refl. reflexivity.
  - destruct (String.eqb_spec k id) as [->|Hne]; [discriminate|].
    destruct (Build.array_index k) as [j|]; [destruct (j <? n)%N|]; cbn;
      rewrite ?String.eqb_refl; try reflexivity.
    destruct (String.eqb_spec k id); [contradiction|]. apply IH. assumption.
Qed.

Lemma obj_insert_index_other : forall obj n id id' m,
  id <> id' -> obj_get (Build.obj_insert_index obj n id m) id' = obj_get obj id'.
Proof.
  induction obj as [|[k w] obj IH]; intros n id id' m Hne; cbn.
  - destruct (String.eqb_spec id id'); [contradiction|reflexivity].
  - destruct (Build.array_index k) as [j|]; [destruct (j <? n)%N|]; cbn;
      destruct (String.eqb_spec id id'); try contradiction; try reflexivity.
    destruct (String.eqb_spec k id'); [reflexivity|]. apply IH. assumption.
Qed.

Lemma obj_insert_index_keys : forall obj n id m,
  Permutation (id :: Object_keys obj) (Object_keys (Build.obj_insert_index obj n id m)).
Proof.
  induction obj as [|[k w] obj IH]; intros n id m; cbn; [reflexivity|].
  destruct (Build.array_index k) as [j|]; [destruct (j <? n)%N|]; cbn; try reflexivity.
  rewrite perm_swap. apply perm_skip. apply IH.
Qed.

Lemma obj_insert_index_has_thumb : forall obj n id m,
  forallb has_thumb obj = true -> has_thumb (id, m) = true ->
  forallb has_thumb (Build.obj_insert_index obj n id m) = true.
Proof.
  induction obj as [|[k v] obj IH]; intros n id m Hall Hm; cbn in *.
  - rewrite Hm. reflexivity.
  - apply andb_prop in Hall. destruct Hall as [Hk Hall].
    destruct (Build.array_index k) as [j|]; [destruct (j <? n)%N|]; cbn;
      rewrite ?Hm, ?Hk, ?Hall; cbn; try reflexivity.
    apply IH; assumption.
Qed.

Lemma obj_get_snoc : forall obj id id' m,
  obj_get (obj ++ [(id, m)]) id'
  = match obj_get obj id' with
    | Some v => Some v
    | None => if String.eqb id id' then Some m else None
    end.
Proof.
  induction obj as [|[k w] obj IH]; intros id id' m; cbn; [reflexivity|].
  destruct (String.eqb k id'); [reflexivity|]. apply IH.
Qed.

Lemma obj_set_same : forall obj id m,
  id <> "__proto__" -> obj_get (Build.obj_set obj id m) id = Some m.
Proof.
  intros obj id m Hp. unfold Build.obj_set.
  destruct (String.eqb_spec id "__proto__") as [Heq|_]; [contradiction|].
  destruct (obj_get obj id) as [v|] eqn:Hg.
  - eapply obj_replace_same; eassumption.
  - destruct (Build.array_index id) as [n|].
    + apply obj_insert_index_same. assumption.
    + rewrite obj_get_snoc, Hg, String.eqb_refl. reflexivity.
Qed.

Lemma obj_set_other : forall obj id id' m,
  id <> id' -> obj_get (Build.obj_set obj id m) id' = obj_get obj id'.
Proof.
  intros obj id id' m Hne. unfold Build.obj_set.
  destruct (String.eqb id "__proto__"); [reflexivity|].
  destruct (obj_get obj id) as [v|] eqn:Hg.
  - apply obj_replace_other. assumption.
  - destruct (Build.array_index id) as [n|].
    + apply obj_insert_index_other. assumption.
    + rewrite obj_get_snoc. destruct (obj_get obj id'); [reflexivity|].
      destruct (String.eqb_spec id id'); [contradiction|reflexivity].
Qed.

Lemma obj_set_keys_known : forall obj id m,
  In id (Object_keys obj) -> Object_keys (Build.obj_set obj id m) = Object_keys obj.
Proof.
  intros obj id m Hin. unfold Build.obj_set.
  destruct (String.eqb id "__proto__"); [reflexivity|].
  destruct (obj_get obj id) as [v|] eqn:Hg.
  - apply obj_replace_keys.
  - apply obj_get_None_keys in Hg. contradiction.
Qed.

Lemma obj_set_keys_fresh : forall obj id m,
  id <> "__proto__" ->
  ~ In id (Object_keys obj) -> Build.array_index id = None ->
  Object_keys (Build.obj_set obj id m) = Object_keys obj ++ [id].
Proof.
  intros obj id m Hp Hn Hi. unfold Build.obj_set.
  destruct (String.eqb_spec id "__proto__") as [Heq|_]; [contradiction|].
  apply obj_get_None_keys in Hn. rewrite Hn, Hi.
  unfold Object_keys. rewrite map_app. reflexivity.
Qed.

Lemma obj_set_keys_perm : forall obj id m,
  id <> "__proto__" ->
  ~ In id (Object_keys obj) ->
  Permutation (Object_keys obj ++ [id]) (Object_keys (Build.obj_set obj id m)).
Proof.
  intros obj id m Hp Hn. unfold Build.obj_set.
  destruct (String.eqb_spec id "__proto__") as [Heq|_]; [contradiction|].
  apply obj_get_None_keys in Hn. rewrite Hn.
  destruct (Build.array_index id) as [n|].
  - rewrite <- obj_insert_index_keys. rewrite Permutation_app_comm. reflexivity.
  - unfold Object_keys. rewrite map_app. reflexivity.
Qed.

Lemma obj_set_has_thumb : forall obj id m,
  forallb has_thumb obj = true -> has_thumb (id, m) = true ->
  forallb has_thumb (Build.obj_set obj id m) = true.
Proof.
  intros obj id m Hall Hm. unfold Build.obj_set.
  destruct (String.eqb id "__proto__"); [assumption|].
  destruct (obj_get obj id) as [v|].
  - apply obj_replace_has_thumb; assumption.
  - destruct (Build.array_index id) as [n|].
    + apply obj_insert_index_has_thumb; assumption.
    + rewrite forallb_app, Hall. cbn. rewrite Hm. reflexivity.
Qed.

Lemma NoDup_snoc_string : forall (l : list string) x,
  NoDup l -> ~ In x l -> NoDup (l ++ [x]).
Proof.
  induction l as [|a l IH]; intros x Hnd Hx; cbn.
  - constructor; [intros []|constructor].
  - inversion Hnd; subst. constructor.
    + rewrite in_app_iff. cbn. intros [H|[H|[]]]; [contradiction|].
      subst. apply Hx. left; reflexivity.
    + apply IH; [assumption|]. intro H. apply Hx. right; assumption.
Qed.

Lemma obj_set_NoDup : forall obj id m,
  NoDup (Object_keys obj) -> NoDup (Object_keys (Build.obj_set obj id m)).
Proof.
  intros obj id m H. destruct (in_dec string_dec id (Object_keys obj)) as [Hin|Hn].
  - rewrite obj_set_keys_known; assumption.
  - destruct (String.eqb_spec id "__proto__") as [->|Hp]; [exact H|].
    eapply Permutation_NoDup; [apply obj_set_keys_perm; assumption|].
    apply NoDup_snoc_string; assumption.
Qed.

Lemma payload_after_pack : forall st f p,
  Build.processed f = Some p ->
  payload_of (Build.pack_file st f)
  = payload_of st ++ Build.thumbBuffer p ++ Build.animBuffer f.
Proof.
  intros st f p Hp. unfold payload_of, Build.pack_file. rewrite Hp. cbn.
  rewrite concat_app. cbn. rewrite app_nil_r. reflexivity.
Qed.

Lemma offset_ok_pack : forall st f, offset_ok st -> offset_ok (Build.pack_file st f).
Proof.
  intros st f H. unfold offset_ok in *.
  destruct (Build.processed f) as [p|] eqn:Hp.
  - rewrite (payload_after_pack st f p Hp). unfold Build.pack_file. rewrite Hp. cbn.
    rewrite !byteLength_app. lia.
  - unfold Build.pack_file. rewrite Hp. assumption.
Qed.

Lemma reads_back_kept : forall st f id w h tb ab,
  reads_back st id w h tb ab ->
  (forall p, Build.processed f = Some p -> Build.id_of f <> id) ->
  reads_back (Build.pack_file st f) id w h tb ab.
Proof.
  intros st f id w h tb ab H Hne.
  destruct (Build.processed f) as [p|] eqn:Hp.
  2:{ unfold Build.pack_file. rewrite Hp. assumption. }
  destruct H as (rt & ra & Hget & H0 & Hlt & Hoa & Hla & Hfit & Ht & Ha).
  pose proof (byteLength_nonneg tb). pose proof (byteLength_nonneg ab).
  exists rt, ra. rewrite (payload_after_pack st f p Hp).
  repeat split; try assumption.
  - unfold Build.pack_file. rewrite Hp. cbn.
    rewrite obj_set_other by (apply (Hne p); reflexivity). assumption.
  - rewrite byteLength_app. pose proof (byteLength_nonneg (Build.thumbBuffer p ++ Build.animBuffer f)). lia.
  - rewrite byte_range_app_left by lia. assumption.
  - rewrite byte_range_app_left by lia. assumption.
Qed.

Lemma reads_back_new : forall st f p,
  offset_ok st -> Build.processed f = Some p ->
  Build.id_of f <> "__proto__" ->
  reads_back (Build.pack_file st f) (Build.id_of f)
    (Build.meta_width p) (Build.meta_height p)
    (Build.thumbBuffer p) (Build.animBuffer f).
Proof.
  intros st f p Hok Hp Hid. unfold offset_ok in Hok.
  exists {| offset := Build.next_offset st; length := byteLength (Build.thumbBuffer p) |},
         {| offset := Build.next_offset st + byteLength (Build.thumbBuffer p);
            length := byteLength (Build.animBuffer f) |}.
  rewrite (payload_after_pack st f p Hp). cbn [offset length].
  pose proof (byteLength_nonneg (payload_of st)).
  pose proof (byteLength_nonneg (Build.thumbBuffer p)).
  repeat split; try lia.
  - unfold Build.pack_file. rewrite Hp. cbn [Build.index]. apply obj_set_same. assumption.
  - rewrite !byteLength_app. lia.
  - rewrite Hok. replace (byteLength (payload_of st)) with (byteLength (payload_of st) + 0) by lia.
    rewrite byte_range_app_right by lia. apply byte_range_whole.
  - rewrite Hok, app_assoc, <- byteLength_app.
    replace (byteLength (payload_of st ++ Build.thumbBuffer p))
      with (byteLength (payload_of st ++ Build.thumbBuffer p) + 0) by lia.
    rewrite byte_range_app_right by lia.
    rewrite <- (app_nil_r (Build.animBuffer f)) at 1. apply byte_range_whole.
Qed.

Lemma reads_back_through : forall files st id w h tb ab,
  reads_back st id w h tb ab ->
  (forall f p, In f files -> Build.processed f = Some p -> Build.id_of f <> id) ->
  reads_back (fold_left Build.pack_file files st) id w h tb ab.
Proof.
  induction files as [|f files IH]; intros st id w h tb ab H Hne; cbn; [assumption|].
  apply IH.
  - apply reads_back_kept; [assumption|]. intros p Hp. apply (Hne f p); [left; reflexivity|assumption].
  - intros f' p' Hin Hp'. apply (Hne f' p'); [right; assumption|assumption].
Qed.

Lemma pack_reads_back : forall files st,
  offset_ok st ->
  NoDup (map Build.id_of (filter is_processed files)) ->
  forall f p, In f files -> Build.processed f = Some p ->
  Build.id_of f <> "__proto__" ->
  reads_back (fold_left Build.pack_file files st) (Build.id_of f)
    (Build.meta_width p) (Build.meta_height p)
    (Build.thumbBuffer p) (Build.animBuffer f).
Proof.
  induction files as [|f0 files IH]; intros st Hok Hnd f p Hin Hp Hid; [contradiction|].
  cbn [fold_left]. cbn [filter] in Hnd. unfold is_processed at 1 in Hnd.
  destruct Hin as [->|Hin].
  - rewrite Hp in Hnd. cbn in Hnd. inversion Hnd; subst.
    apply reads_back_through; [apply reads_back_new; assumption|].
    intros f' p' Hin' Hp' Heq. apply H1. rewrite <- Heq.
    apply in_map. apply filter_In. split; [assumption|].
    unfold is_processed. rewrite Hp'. reflexivity.
  - apply IH; try assumption; [apply offset_ok_pack; assumption|].
    destruct (Build.processed f0); [inversion Hnd; assumption|assumption].
Qed.

Lemma pack_has_thumb : forall files st,
  forallb has_thumb (Build.index st) = true ->
  forallb has_thumb (Build.index (fold_left Build.pack_file files st)) = true.
Proof.
  induction files as [|f files IH]; intros st H; cbn; [assumption|].
  apply IH. unfold Build.pack_file. destruct (Build.processed f); [|assumption].
  cbn. apply obj_set_has_thumb; [assumption|reflexivity].
Qed.

Lemma pack_NoDup : forall files st,
  NoDup (Object_keys (Build.index st)) ->
  NoDup (Object_keys (Build.index (fold_left Build.pack_file files st))).
Proof.
  induction files as [|f files IH]; intros st H; cbn; [assumption|].
  apply IH. unfold Build.pack_file. destruct (Build.processed f); [|assumption].
  cbn. apply obj_set_NoDup. assumption.
Qed.

Lemma pack_keys_perm : forall files st,
  NoDup (Object_keys (Build.index st) ++ map Build.id_of (filter is_processed files)) ->
  ~ In "__proto__" (map Build.id_of (filter is_processed files)) ->
  Permutation
    (Object_keys (Build.index st) ++ map Build.id_of (filter is_processed files))
    (Object_keys (Build.index (fold_left Build.pack_file files st))).
Proof.
  induction files as [|f files IH]; intros st H Hp; cbn in *.
  - rewrite app_nil_r. reflexivity.
  - unfold is_processed at 1 in H. unfold is_processed at 1 in Hp.
    unfold is_processed at 1. unfold Build.pack_file at 2.
    destruct (Build.processed f) as [p|]; [|apply IH; assumption].
    cbn [map] in *.
    assert (Hfresh : ~ In (Build.id_of f) (Object_keys (Build.index st))).
    { intro Hin. apply NoDup_remove_2 in H. apply H. apply in_or_app. left. assumption. }
    assert (Hid : Build.id_of f <> "__proto__").
    { intro Heq. apply Hp. left. assumption. }
    set (m := {| width := Build.meta_width p; height := Build.meta_height p;
                 thumb := _; anim := _ |}).
    set (st' := Build.Build_Packing _ _ _).
    assert (Hstep : Permutation
              (Object_keys (Build.index st)
               ++ Build.id_of f :: map Build.id_of (filter is_processed files))
              (Object_keys (Build.index st')
               ++ map Build.id_of (filter is_processed files))).
    { change (Build.id_of f :: map Build.id_of (filter is_processed files))
        with ([Build.id_of f] ++ map Build.id_of (filter is_processed files)).
      rewrite app_assoc. apply Permutation_app_tail.
      subst st'. cbn [Build.index]. apply obj_set_keys_perm; assumption. }
    rewrite Hstep. apply IH; [eapply Permutation_NoDup; eassumption|].
    intro Hin. apply Hp. right. assumption.
Qed.

Lemma pack_keys : forall files st,
  NoDup (Object_keys (Build.index st) ++ map Build.id_of (filter is_processed files)) ->
  ~ In "__proto__" (map Build.id_of (filter is_processed files)) ->
  Forall (fun id => Build.array_index id = None)
    (map Build.id_of (filter is_processed files)) ->
  Object_keys (Build.index (fold_left Build.pack_file files st))
  = Object_keys (Build.index st) ++ map Build.id_of (filter is_processed files).
Proof.
  induction files as [|f files IH]; intros st H Hp Hs; cbn in *.
  - rewrite app_nil_r. reflexivity.
  - unfold is_processed at 1 in H. unfold is_processed at 1 in Hp.
    unfold is_processed at 1 in Hs. unfold is_processed at 1.
    unfold Build.pack_file at 2.
    destruct (Build.processed f) as [p|]; [|apply IH; assumption].
    cbn [map] in *. inversion Hs as [|x l Hx Hl]; subst.
    assert (Hfresh : ~ In (Build.id_of f) (Object_keys (Build.index st))).
    { intro Hin. apply NoDup_remove_2 in H. apply H. apply in_or_app. left. assumption. }
    assert (Hid : Build.id_of f <> "__proto__").
    { intro Heq. apply Hp. left. assumption. }
    assert (Hrest : ~ In "__proto__" (map Build.id_of (filter is_processed files))).
    { intro Hin. apply Hp. right. assumption. }
    rewrite IH; cbn [Build.index]; [| |assumption|assumption];
      rewrite obj_set_keys_fresh by assumption; rewrite <- app_assoc;
      [reflexivity|assumption].
Qed.

Lemma pack_skips_unreadable : forall files st,
  fold_left Build.pack_file files st
  = fold_left Build.pack_file (filter is_processed files) st.
Proof.
  induction files as [|f files IH]; intros st; cbn; [reflexivity|].
  unfold is_processed at 1. unfold Build.pack_file at 2.
  destruct (Build.processed f) as [p|] eqn:Hp.
  - cbn [fold_left]. rewrite IH. unfold Build.pack_file at 3. rewrite Hp. reflexivity.
  - apply IH.
Qed.

Lemma webp_files_In : forall dir f,
  In f (Build.webp_files dir) <-> In f dir /\ Build.endsWith ".webp" (Build.file f) = true.
Proof. intros dir f. unfold Build.webp_files. apply filter_In. Qed.

(** X11. The build script lays the payload out as its index says: for
    every [.webp] file [sharp] could read, the index has an entry under the
    file's id with the metadata [sharp] returned, the entry's thumbnail
    range read from the payload is the thumbnail buffer, its animation
    range starts where the thumbnail range ends and reads the file's own
    bytes, and both lie inside the payload.  The ids of the packed files are
    taken to be distinct, and the id is not [__proto__] (a file of that
    name gets its bytes into the payload and no entry). *)
Theorem packed_ranges_read_back : forall dir f p,
  NoDup (Build.packed_ids dir) ->
  In f dir -> Build.endsWith ".webp" (Build.file f) = true ->
  Build.processed f = Some p ->
  Build.id_of f <> "__proto__" ->
  reads_back (Build.pack (Build.webp_files dir)) (Build.id_of f)
    (Build.meta_width p) (Build.meta_height p)
    (Build.thumbBuffer p) (Build.animBuffer f).
Proof.
  intros dir f p Hnd Hin Hext Hp Hid. unfold Build.pack.
  apply pack_reads_back; try assumption.
  - reflexivity.
  - apply webp_files_In. split; assumption.
Qed.

Lemma packed_ranges_read_back_witness :
  NoDup (Build.packed_ids BuildSample.dir)
  /\ In BuildSample.a_webp BuildSample.dir
  /\ Build.endsWith ".webp" (Build.file BuildSample.a_webp) = true
  /\ Build.id_of BuildSample.a_webp <> "__proto__"
  /\ reads_back (Build.pack (Build.webp_files BuildSample.dir)) "a" 10 10
       [x10; x11; x12; x13] [x20; x21; x22; x23; x24; x25; x26; x27].
Proof.
  assert (H1 : NoDup (Build.packed_ids BuildSample.dir))
    by (repeat constructor; intros []).
  assert (H2 : In BuildSample.a_webp BuildSample.dir) by (right; right; left; reflexivity).
  assert (H3 : Build.id_of BuildSample.a_webp <> "__proto__") by discriminate.
  split; [exact H1|]. split; [exact H2|]. split; [reflexivity|]. split; [exact H3|].
  exact (packed_ranges_read_back BuildSample.dir BuildSample.a_webp
           {| Build.meta_width := 10; Build.meta_height := 10;
              Build.thumbBuffer := [x10; x11; x12; x13] |}
           H1 H2 eq_refl eq_refl H3).
Defined.

(** X12. A file [sharp] throws on is skipped and costs nothing: the script
    ends exactly as it would on the directory without the unreadable files
    (when a readable [.webp] file is left), with the same index, the same
    offsets and the same bytes. *)
Theorem unreadable_files_are_skipped : forall JSON_stringify dir,
  Build.packed_files dir <> [] ->
  Build.build JSON_stringify dir = Build.build JSON_stringify (Build.packed_files dir).
Proof.
  intros JSON_stringify dir Hne. unfold Build.build.
  assert (Hw : Build.webp_files (Build.packed_files dir) = Build.packed_files dir).
  { clear Hne. unfold Build.packed_files, Build.webp_files.
    induction dir as [|f dir IH]; cbn; [reflexivity|].
    destruct (Build.endsWith ".webp" (Build.file f)) eqn:He; cbn; [|apply IH].
    destruct (Build.processed f); cbn; [|apply IH].
    rewrite He. f_equal. apply IH. }
  rewrite Hw.
  assert (Hp : Build.pack (Build.webp_files dir) = Build.pack (Build.packed_files dir)).
  { unfold Build.pack. apply pack_skips_unreadable. }
  destruct (Build.webp_files dir) as [|a l] eqn:Hd.
  - exfalso. apply Hne. unfold Build.packed_files. rewrite Hd. reflexivity.
  - destruct (Build.packed_files dir) as [|a' l'] eqn:Hd'; [contradiction|].
    rewrite Hp. reflexivity.
Qed.

Lemma unreadable_files_are_skipped_witness :
  Build.packed_files BuildSample.dir <> []
  /\ Build.build BuildSample.JSON_stringify BuildSample.dir
     = Build.build BuildSample.JSON_stringify (Build.packed_files BuildSample.dir).
Proof.
  assert (H : Build.packed_files BuildSample.dir <> []) by discriminate.
  split; [exact H|].
  exact (unreadable_files_are_skipped BuildSample.JSON_stringify BuildSample.dir H).
Defined.

(** X13. What the build script writes, the engine loads.  When the script
    ends with a blob (the ids of the packed files being distinct and none
    of them [__proto__], and the JSON text of the index parsing back to the
    index), [load] of that blob into a new engine returns the script's
    index; [getAllIds()] lists the ids of the packed files, in the order
    they were packed when none of them is an array index (JavaScript lists
    those first); and for every packed file [getItemData] returns the width
    and height [sharp] read and a thumbnail URL backed by exactly the
    thumbnail buffer, and a tap on an image of that id plays a URL backed by
    exactly the file's own bytes. *)
Theorem packed_blob_round_trip : forall JSON_stringify JSON_parse dir blob status,
  Build.build JSON_stringify dir = Build.Written blob ->
  NoDup (Build.packed_ids dir) ->
  ~ In "__proto__" (Build.packed_ids dir) ->
  JSON_parse (JSON_stringify (Build.index (Build.pack (Build.webp_files dir))))
  = Some (Some (Build.index (Build.pack (Build.webp_files dir)))) ->
  exists s ids,
    load JSON_parse (FetchResponse true status blob) new_GalleryEngine
    = (Ok (Some (Build.index (Build.pack (Build.webp_files dir)))), s)
    /\ getAllIds s = (Ok ids, s)
    /\ Permutation (Build.packed_ids dir) ids
    /\ (Forall (fun id => Build.array_index id = None) (Build.packed_ids dir) ->
        ids = Build.packed_ids dir)
    /\ forall f p, In f dir -> Build.endsWith ".webp" (Build.file f) = true ->
         Build.processed f = Some p ->
         (exists t,
            getItemData (Build.id_of f) s
            = (Ok (Some {| item_url := Some t; item_width := Some (Build.meta_width p);
                           item_height := Some (Build.meta_height p) |}), s)
            /\ blob_of (trace s) t = Some (Build.thumbBuffer p))
         /\ (forall tgt, tappable tgt (Build.id_of f) ->
               exists u s',
                 handleTap tgt s = (Ok tt, s')
                 /\ Playing (Build.id_of f) tgt u s'
                 /\ blob_of (trace s') u = Some (Build.animBuffer f)).
Proof.
  intros JSON_stringify JSON_parse dir blob status Hbuild Hnd Hproto Hjson.
  assert (Hw : exists h,
            Build.writeUInt32LE
              (byteLength (JSON_stringify (Build.index (Build.pack (Build.webp_files dir)))))
            = Some h
            /\ blob = h ++ JSON_stringify (Build.index (Build.pack (Build.webp_files dir)))
                        ++ payload_of (Build.pack (Build.webp_files dir))).
  { unfold Build.build in Hbuild.
    destruct (Build.webp_files dir) as [|a l]; [discriminate|]. cbv zeta in Hbuild.
    destruct (Build.writeUInt32LE _) as [h|]; [|discriminate].
    exists h. split; [reflexivity|]. injection Hbuild as <-. reflexivity. }
  set (st := Build.pack (Build.webp_files dir)) in *.
  set (json := JSON_stringify (Build.index st)) in *.
  clear Hbuild. destruct Hw as (h & Hh & ->).
  pose proof (header_length _ _ Hh) as Hlen.
  pose proof (byteLength_nonneg json) as HL.
  set (blob := h ++ json ++ payload_of st).
  assert (Hhead : getUint32 blob 0 = Some (byteLength json))
    by (apply header_reads_back; assumption).
  assert (Htext : Uint8Array blob 4 (byteLength json) = Some json).
  { rewrite Uint8Array_view by assumption.
    unfold blob. rewrite !byteLength_app, Hlen.
    pose proof (byteLength_nonneg (payload_of st)).
    destruct (Z.leb_spec (4 + byteLength json)
                (4 + (byteLength json + byteLength (payload_of st)))); [|lia].
    f_equal. rewrite <- Hlen at 1. rewrite <- (Z.add_0_r (byteLength h)).
    rewrite byte_range_app_right by lia. apply byte_range_whole. }
  assert (Hthumbs : forallb has_thumb (Build.index st) = true)
    by (apply pack_has_thumb; reflexivity).
  assert (Hperm : Permutation (Build.packed_ids dir) (Object_keys (Build.index st)))
    by exact (pack_keys_perm (Build.webp_files dir) Build.start Hnd Hproto).
  assert (Hndk : NoDup (Object_keys (Build.index st)))
    by (eapply Permutation_NoDup; eassumption).
  pose proof (Inv_after_load blob (Build.index st) (byteLength json) Hndk Hthumbs) as HI.
  set (s := after_load blob (Build.index st) (byteLength json) new_GalleryEngine) in *.
  assert (Hidle : Idle s).
  { unfold Idle, s, after_load. cbn [logged engine]. rewrite materialized_engine. reflexivity. }
  exists s, (Object_keys (Build.index st)). split; [|split; [|split; [|split]]].
  - rewrite load_eq. unfold load_closed. rewrite Hhead, Htext.
    fold json in Hjson. rewrite Hjson, Hthumbs. reflexivity.
  - unfold getAllIds, gets. rewrite (inv_index _ _ _ _ HI). reflexivity.
  - exact Hperm.
  - intros Hstr. exact (pack_keys (Build.webp_files dir) Build.start Hnd Hproto Hstr).
  - intros f p Hin Hext Hp.
    assert (Hstart : offset_ok Build.start) by reflexivity.
    assert (Hweb : In f (Build.webp_files dir)) by (apply webp_files_In; split; assumption).
    assert (Hid : Build.id_of f <> "__proto__").
    { intro Heq. apply Hproto. rewrite <- Heq. unfold Build.packed_ids.
      apply in_map. apply filter_In. split; [assumption|]. rewrite Hp. reflexivity. }
    assert (Hrb : reads_back st (Build.id_of f) (Build.meta_width p) (Build.meta_height p)
                    (Build.thumbBuffer p) (Build.animBuffer f))
      by exact (pack_reads_back (Build.webp_files dir) Build.start Hstart Hnd f p Hweb Hp Hid).
    destruct Hrb as (rt & ra & Hget & Hot & Hlt & Hoa & Hla & Hfit & Hbt & Hba).
    assert (Hbase : byteLength (h ++ json) = 4 + byteLength json)
      by (rewrite byteLength_app; lia).
    assert (Hcut : forall r, 0 <= offset r -> 0 <= length r ->
              slice_of blob (4 + byteLength json) r
              = byte_range (payload_of st) (offset r) (length r)).
    { intros r Ho Hl. rewrite slice_of_byte_range by lia.
      unfold blob. rewrite app_assoc, <- Hbase. apply byte_range_app_right. assumption. }
    pose proof (byteLength_nonneg (Build.thumbBuffer p)).
    pose proof (byteLength_nonneg (Build.animBuffer f)).
    split.
    + destruct (inv_thumbs _ _ _ _ HI _ _ Hget) as (r & t & Hr & Hmap & Hblob).
      cbn [thumb] in Hr. injection Hr as <-.
      exists t. split.
      * unfold getItemData, bind, gets, ret.
        rewrite (inv_index _ _ _ _ HI), (lookup_entry _ _ _ Hget), Hmap.
        reflexivity.
      * rewrite Hblob, Hcut, Hbt by lia. reflexivity.
    + intros tgt Htap.
      exists (next_url (logged (LogPlay (Build.id_of f)) s)).
      exists (played (Build.id_of f) tgt
                (slice_of blob (4 + byteLength json) ra)
                (logged (LogPlay (Build.id_of f)) s)).
      split; [|split].
      * rewrite (tap_when_idle _ _ _ Htap Hidle).
        rewrite (play_known (logged (LogPlay (Build.id_of f)) s) (Build.id_of f) tgt
                   (Build.index st) _ blob ra
                   (inv_index _ _ _ _ HI) Hget (inv_buffer _ _ _ _ HI) eq_refl).
        cbn [logged engine]. rewrite (inv_payload _ _ _ _ HI). reflexivity.
      * unfold Playing. cbn [played engine]. destruct (engine (logged _ s)); reflexivity.
      * cbn [played trace blob_of]. rewrite Nat.eqb_refl, Hcut, Hba by lia. reflexivity.
Qed.

Lemma packed_blob_round_trip_witness :
  exists s ids,
    load Sample.JSON_parse (FetchResponse true 200%nat Sample.blob_a) new_GalleryEngine
    = (Ok (Some (Build.index (Build.pack (Build.webp_files BuildSample.dir)))), s)
    /\ getAllIds s = (Ok ids, s)
    /\ Permutation (Build.packed_ids BuildSample.dir) ids
    /\ (Forall (fun id => Build.array_index id = None)
          (Build.packed_ids BuildSample.dir) ->
        ids = Build.packed_ids BuildSample.dir)
    /\ forall f p, In f BuildSample.dir ->
         Build.endsWith ".webp" (Build.file f) = true ->
         Build.processed f = Some p ->
         (exists t,
            getItemData (Build.id_of f) s
            = (Ok (Some {| item_url := Some t; item_width := Some (Build.meta_width p);
                           item_height := Some (Build.meta_height p) |}), s)
            /\ blob_of (trace s) t = Some (Build.thumbBuffer p))
         /\ (forall tgt, tappable tgt (Build.id_of f) ->
               exists u s',
                 handleTap tgt s = (Ok tt, s')
                 /\ Playing (Build.id_of f) tgt u s'
                 /\ blob_of (trace s') u = Some (Build.animBuffer f)).
Proof.
  apply (packed_blob_round_trip BuildSample.JSON_stringify Sample.JSON_parse
           BuildSample.dir Sample.blob_a 200%nat).
  - vm_compute. reflexivity.
  - repeat constructor. intros [].
  - intros [H|[]]. discriminate H.
  - vm_compute. reflexivity.
Defined.
